(** * Chat-with-CVs (RAG): chunking, retrieval, context assembly, prompting

    A shallow embedding of the pure core of [ingest.py], [chat.py] and
    [clients.py], and the properties of the specification checked
    against it.

    Python values are modelled as follows.
    - [str] is a sequence of Unicode code points: [pystr := list N].
    - [int] is [Z]; indices may be negative and are adjusted the way
      CPython adjusts slice indices.
    - [float] (similarity scores) is the exact rational value of the
      double: [Q].
    - the [while] loop of [chunk_text] is iterated with fuel; running
      out of fuel is [None]. *)

From Stdlib Require Import ZArith NArith List Lia Bool String Ascii.
From Stdlib Require Import QArith Qround Qpower Lqa FinFun.
From Stdlib Require Import Sorted Permutation DecimalString.
Import ListNotations.

Open Scope Z_scope.

(** ** Python strings *)

Module Py.

Definition char := N.
Definition pystr := list char.

Definition lit (s : string) : pystr :=
  List.map N_of_ascii (list_ascii_of_string s).

Definition newline : char := 10%N.

(** [str.isspace] on one code point: the ASCII table of CPython
    ([_Py_ascii_whitespace]) and [_PyUnicode_IsWhitespace]. *)
Definition isspace (c : char) : bool :=
  ((9 <=? c) && (c <=? 13) || (28 <=? c) && (c <=? 32)
   || (c =? 133) || (c =? 160) || (c =? 5760)
   || (8192 <=? c) && (c <=? 8202)
   || (c =? 8232) || (c =? 8233) || (c =? 8239) || (c =? 8287)
   || (c =? 12288))%N.

Definition len (t : pystr) : Z := Z.of_nat (List.length t).

(** Index adjustment of slices and of the [start], [end] arguments of
    [str.rfind]: a negative index counts from the end, then both are
    clamped to [0 .. len]. *)
Definition adjust_index (n i : Z) : Z :=
  if i <? 0 then Z.max (i + n) 0 else Z.min i n.

(** [t[i:j]] *)
Definition slice (t : pystr) (i j : Z) : pystr :=
  let lo := adjust_index (len t) i in
  let hi := adjust_index (len t) j in
  firstn (Z.to_nat (hi - lo)) (skipn (Z.to_nat lo) t).

(** The integers [lo], [lo + 1], ..., [hi - 1]. *)
Definition zrange (lo hi : Z) : list Z :=
  List.map (fun k => lo + Z.of_nat k) (seq 0 (Z.to_nat (hi - lo))).

(** The positions of a text of length [n] that [t[i:j]] takes its
    characters from. *)
Definition slice_positions (n i j : Z) : list Z :=
  zrange (adjust_index n i) (adjust_index n j).

(** The positions that two slices have in common. *)
Definition shared (ps qs : list Z) : list Z :=
  filter (fun p => existsb (Z.eqb p) qs) ps.

(** Offset of the last occurrence of [c] in [l]. *)
Fixpoint rindex (c : char) (l : pystr) : option nat :=
  match l with
  | [] => None
  | x :: r =>
      match rindex c r with
      | Some k => Some (S k)
      | None => if (x =? c)%N then Some O else None
      end
  end.

(** [t.rfind(c, i, j)] for a one-character needle: the highest index
    in the adjusted range that holds [c], or [-1]. *)
Definition rfind (c : char) (t : pystr) (i j : Z) : Z :=
  match rindex c (slice t i j) with
  | Some k => adjust_index (len t) i + Z.of_nat k
  | None => -1
  end.

Fixpoint lstrip (t : pystr) : pystr :=
  match t with
  | [] => []
  | c :: r => if isspace c then lstrip r else t
  end.

(** [t.strip()] *)
Definition strip (t : pystr) : pystr :=
  rev (lstrip (rev (lstrip t))).

(** Truth value of a string: non-empty. *)
Definition truthy (t : pystr) : bool :=
  match t with [] => false | _ :: _ => true end.

(** [sep.join(parts)] *)
Fixpoint join (sep : pystr) (parts : list pystr) : pystr :=
  match parts with
  | [] => []
  | [p] => p
  | p :: rest => p ++ sep ++ join sep rest
  end.

End Py.

(** ** clients.py: configuration and the embedding adapter *)

Module Clients.
Import Py.

Definition COLLECTION_NAME : pystr := lit "hr_cvs".
Definition CHUNK_SIZE : Z := 500.
Definition CHUNK_OVERLAP : Z := 100.

(** The sentence-embedding model: one vector per input text. *)
Definition vector := list Q.
Definition embedder := pystr -> vector.

Definition embed_texts (model : embedder) (texts : list pystr) : list vector :=
  List.map model texts.

(** [embed_texts([query])[0]] *)
Definition embed_query (model : embedder) (query : pystr) : vector :=
  nth 0 (embed_texts model [query]) [].

End Clients.

(** ** ingest.py: the chunker *)

Module Ingest.
Import Py Clients.

(** State of the [while] loop of [chunk_text]. *)
Record loop_state := { start : Z; chunks : list pystr }.

(** The [end] of the segment that begins at [start]: the tentative end
    [start + CHUNK_SIZE], moved back to the last newline of
    [text[start:end]] when the tentative end is before the end of the
    text and that newline is after [start]. *)
Definition segment_end (text : pystr) (start : Z) : Z :=
  let end_ := start + CHUNK_SIZE in
  if end_ <? len text then
    let bp := rfind newline text start end_ in
    if bp >? start then bp else end_
  else end_.

(** One iteration of the loop body. *)
Definition loop_body (text : pystr) (st : loop_state) : loop_state :=
  let end_ := segment_end text (start st) in
  let chunk := strip (slice text (start st) end_) in
  {| start := end_ - CHUNK_OVERLAP;
     chunks := if truthy chunk then chunks st ++ [chunk] else chunks st |}.

(** The loop, with fuel: [Some chunks] when the loop condition becomes
    false, [None] when [fuel] iterations were not enough. *)
Fixpoint chunk_loop (fuel : nat) (text : pystr) (st : loop_state)
  : option (list pystr) :=
  if start st <? len text then
    match fuel with
    | O => None
    | S fuel' => chunk_loop fuel' text (loop_body text st)
    end
  else Some (chunks st).

Definition init : loop_state := {| start := 0; chunks := [] |}.

Definition chunk_text (fuel : nat) (text : pystr) : option (list pystr) :=
  chunk_loop fuel text init.

(** The state after [n] iterations (or at loop exit, if earlier). *)
Fixpoint loop_iter (n : nat) (text : pystr) (st : loop_state) : loop_state :=
  match n with
  | O => st
  | S n' =>
      if start st <? len text then loop_iter n' text (loop_body text st)
      else st
  end.

(** The segments [(start, end)] of the first [n] iterations. *)
Fixpoint segments (n : nat) (text : pystr) (start : Z) : list (Z * Z) :=
  match n with
  | O => []
  | S n' =>
      if start <? len text then
        let end_ := segment_end text start in
        (start, end_) :: segments n' text (end_ - CHUNK_OVERLAP)
      else []
  end.

(** What every collected chunk satisfies. *)
Definition chunk_ok (c : pystr) : Prop := c <> [] /\ len c <= CHUNK_SIZE.

(** Invariant of the loop: [start] never goes below
    [-(CHUNK_OVERLAP + 1)], and every chunk collected so far is
    non-empty and at most [CHUNK_SIZE] long. *)
Definition loop_inv (st : loop_state) : Prop :=
  - (CHUNK_OVERLAP + 1) <= start st /\ Forall chunk_ok (chunks st).

End Ingest.

(** ** Python floats *)

Module PyFloat.

Open Scope Q_scope.

(** Nearest integer, ties to the even one. *)
Definition round_half_even (q : Q) : Z :=
  let f := Qfloor q in
  match Qcompare (q - inject_Z f) (1 # 2) with
  | Lt => f
  | Gt => (f + 1)%Z
  | Eq => if Z.even f then f else (f + 1)%Z
  end.

(** Exponent of the unit in the last place of the binary64 format at a
    non-negative [q]: 53 significant bits, smallest exponent [-1074]. *)
Definition ulp_exp (q : Q) : Z :=
  Z.max (Z.log2 (Qfloor (q * inject_Z (2 ^ 1074))) - 1126) (-1074).

(** Rounding of a non-negative rational to the nearest double, ties to
    even (no overflow to infinity). *)
Definition nearest_double_nonneg (q : Q) : Q :=
  let e := ulp_exp q in
  inject_Z (round_half_even (q / 2 ^ e)) * 2 ^ e.

(** Rounding to the nearest double. *)
Definition to_double (q : Q) : Q :=
  match Qcompare q 0 with
  | Lt => - nearest_double_nonneg (- q)
  | _ => nearest_double_nonneg q
  end.

(** [round(x, ndigits)] for a float [x] and [ndigits >= 0]: CPython
    rounds the exact value of [x] to [ndigits] decimals, ties to even,
    and converts the decimal back to the nearest double. *)
Definition round (x : Q) (ndigits : Z) : Q :=
  let scale := inject_Z (10 ^ ndigits) in
  to_double (inject_Z (round_half_even (x * scale)) / scale).

(** The double nearest to [3/10]. *)
Definition three_tenths : Q := 5404319552844595 # 18014398509481984.

End PyFloat.

(** ** chat.py: retrieval, context assembly, prompting, orchestration *)

Module Chat.
Import Py Clients.

Definition TOP_K : Z := 5.

(** The float literal [0.3]. *)
Definition SCORE_THRESHOLD : Q := PyFloat.to_double (3 # 10).

Definition nl : pystr := [newline].

Definition SYSTEM_PROMPT : pystr :=
  join nl
    [ lit "You are an expert HR assistant helping a recruiter evaluate candidates.";
      lit "";
      lit "Rules:";
      lit "- Answer ONLY from the CV excerpts provided " ++ [8212%N]
        ++ lit " never invent information";
      lit "- Always mention the candidate's name when referencing their data";
      lit "- Be concise but complete; use structure when comparing multiple candidates";
      lit "- If relevant info is missing from the excerpts, say so clearly";
      lit "- End with a short recommendation when the question involves selection or ranking" ].

(** *** The external services and the calls made to them *)

(** Payload stored with each vector by [ingest_cvs]. *)
Record payload := {
  p_text : pystr;
  p_candidate : pystr;
  p_filename : pystr;
  p_chunk_index : Z;
  p_total_chunks : Z
}.

(** A point returned by the vector store's search. *)
Record scored_point := { sp_payload : payload; sp_score : Q }.

(** The vector store client: [search(collection_name, query_vector,
    limit, score_threshold)], always called with [with_payload=True]
    and [with_vectors=False]. *)
Record qdrant_client := {
  search : pystr -> vector -> Z -> Q -> list scored_point
}.

(** The language model: the text of the response to a prompt. *)
Record generative_model := { generate_content : pystr -> pystr }.

(** Calls made to the external services, oldest first. *)
Inductive event :=
| EvSearch (collection : pystr) (query_vector : vector) (limit : Z)
    (score_threshold : Q)
| EvGenerate (prompt : pystr).

Definition trace := list event.

Definition is_generate (e : event) : bool :=
  match e with EvGenerate _ => true | EvSearch _ _ _ _ => false end.

(** Computations that call the services: a state monad over the trace. *)
Definition M (A : Type) : Type := trace -> A * trace.

Definition ret {A} (a : A) : M A := fun tr => (a, tr).

Definition bind {A B} (m : M A) (k : A -> M B) : M B :=
  fun tr => let (a, tr') := m tr in k a tr'.

Definition emit (e : event) : M unit := fun tr => (tt, tr ++ [e]).

Notation "x <- m ;; k" := (bind m (fun x => k))
  (at level 61, m at next level, right associativity).
Notation "m ;;; k" := (bind m (fun _ => k))
  (at level 61, right associativity).

Definition call_search (qdrant : qdrant_client) (collection : pystr)
  (v : vector) (limit : Z) (threshold : Q) : M (list scored_point) :=
  emit (EvSearch collection v limit threshold) ;;;
  ret (search qdrant collection v limit threshold).

Definition call_generate (gemini_model : generative_model) (prompt : pystr)
  : M pystr :=
  emit (EvGenerate prompt) ;;;
  ret (generate_content gemini_model prompt).

(** *** Retrieval *)

(** A retrieval hit: the dict built by [retrieve]. *)
Record hit := {
  text : pystr;
  candidate : pystr;
  filename : pystr;
  chunk_index : Z;
  score : Q
}.

Definition hit_of_point (h : scored_point) : hit :=
  {| text := p_text (sp_payload h);
     candidate := p_candidate (sp_payload h);
     filename := p_filename (sp_payload h);
     chunk_index := p_chunk_index (sp_payload h);
     score := PyFloat.round (sp_score h) 3 |}.

Definition retrieve (model : embedder) (question : pystr)
  (qdrant : qdrant_client) (top_k : Z) : M (list hit) :=
  let v := embed_query model question in
  hits <- call_search qdrant COLLECTION_NAME v top_k SCORE_THRESHOLD ;;
  ret (List.map hit_of_point hits).

(** A vector store whose search honours the threshold it is passed. *)
Definition honors_threshold (qdrant : qdrant_client) : Prop :=
  forall collection v limit threshold h,
    In h (search qdrant collection v limit threshold) ->
    (threshold <= sp_score h)%Q.

(** *** Context assembly *)

Definition pystr_eqb (a b : pystr) : bool :=
  if list_eq_dec N.eq_dec a b then true else false.

(** [d.setdefault(key, []).append(c)] on an insertion-ordered dict. *)
Fixpoint setdefault_append (key : pystr) (c : hit)
  (d : list (pystr * list hit)) : list (pystr * list hit) :=
  match d with
  | [] => [(key, [c])]
  | (k, items) :: rest =>
      if pystr_eqb k key then (k, items ++ [c]) :: rest
      else (k, items) :: setdefault_append key c rest
  end.

(** The first loop of [build_context]. *)
Definition group_by_candidate (chunks : list hit) : list (pystr * list hit) :=
  fold_left (fun d c => setdefault_append (candidate c) c d) chunks [].

Definition rule : pystr := repeat 61%N 50.

Definition header (name : pystr) : pystr :=
  rule ++ nl ++ lit "CANDIDATE: " ++ name ++ nl ++ rule.

(** The [parts] appended for one dict entry. *)
Definition section_parts (entry : pystr * list hit) : list pystr :=
  header (fst entry) :: flat_map (fun item => [text item; []]) (snd entry).

Definition build_context (chunks : list hit) : pystr :=
  join nl (flat_map section_parts (group_by_candidate chunks)).

(** The grouping in the words of the specification: the distinct
    entity names in the order they first appear, each with all the hits
    that carry it. *)
Fixpoint first_seen (names : list pystr) : list pystr :=
  match names with
  | [] => []
  | n :: rest => n :: filter (fun m => negb (pystr_eqb m n)) (first_seen rest)
  end.

Definition hits_of (name : pystr) (chunks : list hit) : list hit :=
  filter (fun c => pystr_eqb (candidate c) name) chunks.

Definition grouped_spec (chunks : list hit) : list (pystr * list hit) :=
  List.map (fun n => (n, hits_of n chunks)) (first_seen (List.map candidate chunks)).

(** *** Generation *)

Record turn := { role : pystr; content : pystr }.

(** [bool(history)]: the default [None] and the empty list are false. *)
Definition history_turns (history : option (list turn)) : list turn :=
  match history with
  | Some h => h
  | None => []
  end.

(** [history[-4:]] *)
Definition last4 (h : list turn) : list turn :=
  skipn (List.length h - 4) h.

Definition render_turn (t : turn) : pystr :=
  (if pystr_eqb (role t) (lit "user") then lit "Recruiter" else lit "Assistant")
  ++ lit ": " ++ content t ++ nl ++ nl.

Definition history_text (history : option (list turn)) : pystr :=
  fold_left (fun acc t => acc ++ render_turn t)
    (last4 (history_turns history)) [].

Definition build_prompt (question context : pystr)
  (history : option (list turn)) : pystr :=
  let ht := history_text history in
  SYSTEM_PROMPT ++ nl ++ nl
  ++ (if truthy ht then lit "Previous conversation:" ++ nl ++ ht else [])
  ++ nl ++ lit "CV Excerpts:" ++ nl ++ context ++ nl ++ nl
  ++ lit "---" ++ nl ++ nl ++ lit "Recruiter question: " ++ question.



Definition ask_gemini (question context : pystr)
  (gemini_model : generative_model) (history : option (list turn)) : M pystr :=
  call_generate gemini_model (build_prompt question context history).

(** *** Orchestration *)

Record rag_result := { answer : pystr; chunks : list hit }.

Definition NO_CONTENT_ANSWER : pystr :=
  [9888%N; 65039%N]
  ++ lit " No relevant CV content found. Try rephrasing or index more CVs.".

Definition rag (model : embedder) (question : pystr) (qdrant : qdrant_client)
  (gemini_model : generative_model) (history : option (list turn))
  : M rag_result :=
  chunks <- retrieve model question qdrant TOP_K ;;
  match chunks with
  | [] => ret {| answer := NO_CONTENT_ANSWER; chunks := [] |}
  | _ :: _ =>
      let context := build_context chunks in
      a <- ask_gemini question context gemini_model history ;;
      ret {| answer := a; chunks := chunks |}
  end.

End Chat.

(** ** Inputs used in the examples *)

Module Examples.
Import Py Clients Ingest Chat.

(** A line of 100 characters, a newline, and 500 characters more. *)
Definition loop_text : pystr :=
  repeat 97%N 100 ++ [newline] ++ repeat 98%N 500.

(** A line of 99 characters, a newline, and 500 characters more, with
    an [X] at position 200. *)
Definition gap_text : pystr :=
  repeat 97%N 99 ++ [newline] ++ repeat 98%N 100 ++ [88%N]
  ++ repeat 98%N 399.

(** 1000 characters without a newline. *)
Definition plain_text : pystr := repeat 98%N 1000.

(** Two lines of 300 characters: the loop breaks at the newline. *)
Definition two_lines : pystr :=
  repeat 97%N 300 ++ [newline] ++ repeat 98%N 300.

(** A store holding one point of score [0.5]. *)
Definition half_point : scored_point :=
  {| sp_payload :=
       {| p_text := lit "Skills: Python, SQL"; p_candidate := lit "ana";
          p_filename := lit "ana.txt"; p_chunk_index := 0;
          p_total_chunks := 1 |};
     sp_score := 1 # 2 |}.

Definition half_store : qdrant_client :=
  {| search := fun _ _ _ threshold =>
       if Qle_bool threshold (1 # 2) then [half_point] else [] |}.

Definition empty_store : qdrant_client := {| search := fun _ _ _ _ => [] |}.

Definition null_embedder : embedder := fun _ => [].

Definition echo_model : generative_model := {| generate_content := fun p => p |}.

(** Three hits of two candidates, the first candidate's hits apart. *)
Definition hit_ana_0 : hit :=
  {| text := lit "Skills: Python, SQL"; candidate := lit "ana";
     filename := lit "ana.txt"; chunk_index := 0; score := 1 # 2 |}.
Definition hit_bob_0 : hit :=
  {| text := lit "Skills: Java"; candidate := lit "bob";
     filename := lit "bob.txt"; chunk_index := 0; score := 2 # 5 |}.
Definition hit_ana_1 : hit :=
  {| text := lit "Education: BSc CS"; candidate := lit "ana";
     filename := lit "ana.txt"; chunk_index := 1; score := 1 # 3 |}.

(** Five turns of a conversation. *)
Definition user_turn (c : pystr) : turn := {| role := lit "user"; content := c |}.
Definition assistant_turn (c : pystr) : turn :=
  {| role := lit "assistant"; content := c |}.

End Examples.

(** ** ingest.py: notions used to state more properties of the chunker *)

Module IngestMore.
Import Py Clients Ingest.

(** The chunk cut from one segment, before the emptiness test. *)
Definition chunk_of (text : pystr) (seg : Z * Z) : pystr :=
  strip (slice text (fst seg) (snd seg)).

(** A string that neither starts nor ends with whitespace. *)
Definition no_edge_space (c : pystr) : Prop :=
  (forall x, hd_error c = Some x -> isspace x = false)
  /\ (forall y, hd_error (rev c) = Some y -> isspace y = false).

(** [a] occurs in [t] as a contiguous substring. *)
Definition substring (a t : pystr) : Prop :=
  exists pre post, t = pre ++ a ++ post.

(** Every iteration that starts inside the text moves [start] forward:
    its end is more than [CHUNK_OVERLAP] after its start. *)
Definition forward_progress (text : pystr) : Prop :=
  forall s, 0 <= s < len text -> s + CHUNK_OVERLAP < segment_end text s.

(** [t[p]] for an index inside the text. *)
Definition char_at (t : pystr) (p : Z) : char := nth (Z.to_nat p) t 0%N.

(** No line of the text has more than [w] characters: scanning the
    text, [run] counts the characters since the last newline. *)
Fixpoint short_lines_from (w run : nat) (t : pystr) : bool :=
  match t with
  | [] => true
  | c :: r =>
      if (c =? newline)%N then short_lines_from w 0 r
      else (S run <=? w)%nat && short_lines_from w (S run) r
  end.

Definition short_lines (w : nat) (t : pystr) : bool := short_lines_from w 0 t.

(** The segments of a text without newline: hard cuts at a fixed
    stride. *)
Definition hard_cuts (n : Z) : list (Z * Z) :=
  List.map
    (fun k => ((CHUNK_SIZE - CHUNK_OVERLAP) * Z.of_nat k,
               (CHUNK_SIZE - CHUNK_OVERLAP) * Z.of_nat k + CHUNK_SIZE))
    (seq 0 (Z.to_nat ((n + (CHUNK_SIZE - CHUNK_OVERLAP) - 1)
                      / (CHUNK_SIZE - CHUNK_OVERLAP)))).

End IngestMore.

(** ** chat.py: assumptions on the store, and the rows of print_sources *)

Module ChatMore.
Import Py Clients Chat.

(** A vector store whose search returns at most [limit] points. *)
Definition honors_limit (qdrant : qdrant_client) : Prop :=
  forall collection v limit threshold,
    0 <= limit ->
    Z.of_nat (List.length (search qdrant collection v limit threshold)) <= limit.

(** Scores in descending order. *)
Definition descending {A : Type} (key : A -> Q) (l : list A) : Prop :=
  Sorted (fun a b => (key b <= key a)%Q) l.

(** A vector store whose search returns its points by descending
    score. *)
Definition returns_descending (qdrant : qdrant_client) : Prop :=
  forall collection v limit threshold,
    descending sp_score (search qdrant collection v limit threshold).

(** *** print_sources: the rows printed for the text of one chunk *)








End ChatMore.

(** ** clients.py: the cached embedding model *)

Module ClientsState.
Import Py Clients.

Definition EMBEDDING_MODEL : pystr := lit "BAAI/bge-small-en-v1.5".

(** What the process does that is visible outside: lines printed,
    models constructed, texts encoded. *)
Inductive event :=
| Print (line : pystr)
| LoadModel (name : pystr)
| Encode (texts : list pystr) (show_progress_bar : bool).

(** The module-level [_embedder] and the events so far. *)
Record process := { _embedder : option embedder; log : list event }.

Definition start_process : process := {| _embedder := None; log := [] |}.

(** [SentenceTransformer] is the constructor of the library: the
    model for a name. *)
Definition get_embedder (SentenceTransformer : pystr -> embedder)
  (p : process) : embedder * process :=
  match _embedder p with
  | None =>
      let m := SentenceTransformer EMBEDDING_MODEL in
      (m, {| _embedder := Some m;
             log := log p
               ++ [ Print ([128230%N] ++ lit " Loading embedding model: "
                           ++ EMBEDDING_MODEL
                           ++ lit " (first run downloads ~130MB)");
                    LoadModel EMBEDDING_MODEL;
                    Print ([9989%N] ++ lit " Embedding model ready") ] |})
  | Some m => (m, p)
  end.

Definition embed_texts (SentenceTransformer : pystr -> embedder)
  (texts : list pystr) (p : process) : list vector * process :=
  let (m, p') := get_embedder SentenceTransformer p in
  (Clients.embed_texts m texts,
   {| _embedder := _embedder p';
      log := log p' ++ [Encode texts (10 <? Z.of_nat (List.length texts))] |}).

Definition embed_query (SentenceTransformer : pystr -> embedder)
  (query : pystr) (p : process) : vector * process :=
  let (vs, p') := embed_texts SentenceTransformer [query] p in
  (nth 0 vs [], p').

(** A sequence of calls of [embed_texts], one per batch. *)
Fixpoint embed_batches (SentenceTransformer : pystr -> embedder)
  (batches : list (list pystr)) (p : process)
  : list (list vector) * process :=
  match batches with
  | [] => ([], p)
  | texts :: rest =>
      let (vs, p') := embed_texts SentenceTransformer texts p in
      let (vss, p'') := embed_batches SentenceTransformer rest p' in
      (vs :: vss, p'')
  end.

Definition is_load (e : event) : bool :=
  match e with LoadModel _ => true | _ => false end.

End ClientsState.

(** ** ingest.py: extraction and the points of one document *)

Module IngestFiles.
Import Py Clients Ingest Chat.

(** What a call gives back: the value it returns, or the exception it
    raises. *)
Inductive outcome (A : Type) : Type :=
| Returned (a : A)
| Raised (exc : pystr).

Arguments Returned {A} a.
Arguments Raised {A} exc.

(** The rest of a function body after a call that may raise: an
    exception is not caught and leaves the function. *)
Definition and_then {A B : Type} (o : outcome A) (k : A -> outcome B) : outcome B :=
  match o with
  | Returned a => k a
  | Raised exc => Raised exc
  end.

Section Extraction.

(** The parsers of the libraries: the text of each page of a PDF
    ([fitz.open] and [get_text]), the text of each paragraph of a DOCX
    ([docx.Document]), the decoded content of a text file ([open] and
    [read]). Each raises on a file that it cannot open, parse or
    decode. *)
Variable pdf_pages : pystr -> outcome (list pystr).
Variable docx_paragraphs : pystr -> outcome (list pystr).
Variable read_file : pystr -> outcome pystr.

(** [os.path.splitext(path)[1].lower()] *)
Variable lower_ext : pystr -> pystr.

Definition extract_text_from_pdf (path : pystr) : outcome pystr :=
  and_then (pdf_pages path) (fun pages =>
    Returned (strip (fold_left (fun text page => text ++ page) pages []))).

Definition extract_text_from_docx (path : pystr) : outcome pystr :=
  and_then (docx_paragraphs path) (fun paragraphs =>
    Returned (strip (join [newline] paragraphs))).

Definition extract_text_from_txt (path : pystr) : outcome pystr :=
  and_then (read_file path) (fun content => Returned (strip content)).

(** The dict [fn] of [extract_text]. *)
Definition extractors : list (pystr * (pystr -> outcome pystr)) :=
  [ (lit ".pdf", extract_text_from_pdf);
    (lit ".docx", extract_text_from_docx);
    (lit ".txt", extract_text_from_txt) ].

Fixpoint lookup {A : Type} (key : pystr) (d : list (pystr * A)) : option A :=
  match d with
  | [] => None
  | (k, v) :: rest => if pystr_eqb k key then Some v else lookup key rest
  end.

(** The lines printed, and the text returned or the exception raised. *)
Definition extract_text (path : pystr) : list pystr * outcome pystr :=
  let ext := lower_ext path in
  match lookup ext extractors with
  | None =>
      ([lit "  " ++ [9888%N; 65039%N] ++ lit "  Unsupported format: " ++ ext],
       Returned [])
  | Some f => ([], f path)
  end.

End Extraction.

(** A point of the collection. *)
Record point := { id : pystr; vector_of : vector; payload_of : payload }.

(** [enumerate(l)] *)
Definition enumerate {A : Type} (l : list A) : list (nat * A) :=
  combine (seq 0 (List.length l)) l.

(** The list comprehension of [ingest_cvs]; [uuid4 i] is the
    identifier drawn for the point of index [i]. *)
Definition make_points (uuid4 : nat -> pystr) (chunks : list pystr)
  (embeddings : list vector) (candidate_name filename : pystr) : list point :=
  List.map
    (fun '(i, (chunk, emb)) =>
       {| id := uuid4 i;
          vector_of := emb;
          payload_of :=
            {| p_text := chunk;
               p_candidate := candidate_name;
               p_filename := filename;
               p_chunk_index := Z.of_nat i;
               p_total_chunks := Z.of_nat (List.length chunks) |} |})
    (enumerate (combine chunks embeddings)).

(** Chunking, embedding and point construction for the text of one
    file, as in the loop body of [ingest_cvs]. *)
Definition document_points (fuel : nat) (model : embedder)
  (uuid4 : nat -> pystr) (candidate_name filename text : pystr)
  : option (list point) :=
  match chunk_text fuel text with
  | None => None
  | Some chunks =>
      Some (make_points uuid4 chunks (Clients.embed_texts model chunks)
              candidate_name filename)
  end.

End IngestFiles.

(** ** ingest.py: list_candidates *)

Module Listing.
Import Py Clients Chat.











End Listing.

(** ** chat.py: the terminal chat *)

Module Terminal.
Import Py Clients Chat Listing.




Definition user_turn (question : pystr) : turn :=
  {| role := lit "user"; content := question |}.

Definition assistant_turn (a : pystr) : turn :=
  {| role := lit "assistant"; content := a |}.


Section Chat.

(** [str.lower] *)
Variable lower : pystr -> pystr.

Variable model : embedder.
Variable qdrant : qdrant_client.
Variable gemini_model : generative_model.




End Chat.


Definition is_user (t : turn) : bool := pystr_eqb (role t) (lit "user").

End Terminal.

(** ** More inputs used in the examples *)

Module MoreExamples.
Import Py Clients Ingest Chat Examples IngestFiles Listing Terminal.

Definition short_cv : pystr := lit "Name: Ana".

(** A text file whose content has surrounding blank space, and one
    that is not valid UTF-8. *)
Definition txt_reader : pystr -> outcome pystr :=
  fun _ => Returned (lit "  Name: Ana  ").
Definition undecodable : pystr -> outcome pystr :=
  fun _ => Raised (lit "UnicodeDecodeError").
Definition no_pages : pystr -> outcome (list pystr) := fun _ => Returned [].
Definition txt_ext : pystr -> pystr := fun _ => lit ".txt".
Definition csv_ext : pystr -> pystr := fun _ => lit ".csv".

Definition unit_model : embedder := fun _ => [1%Q].
Definition numbered_id : nat -> pystr := fun i => repeat 105%N (S i).

Definition payload_of_name (name : pystr) : payload :=
  {| p_text := lit "t"; p_candidate := name; p_filename := name;
     p_chunk_index := 0; p_total_chunks := 1 |}.


(** A store of two points that filters by threshold and cuts at the
    limit. *)
Definition top_point : scored_point :=
  {| sp_payload := payload_of_name (lit "bob"); sp_score := 9 # 10 |}.

Definition ranked_store : qdrant_client :=
  {| search := fun _ _ limit threshold =>
       firstn (Z.to_nat limit)
         (filter (fun p => Qle_bool threshold (sp_score p))
            [top_point; half_point]) |}.



(** The chunks of [two_lines]. *)
Definition two_lines_chunks : list pystr :=
  [repeat 97%N 300; repeat 97%N 100 ++ [newline] ++ repeat 98%N 300; [98%N]].

End MoreExamples.

(** * Properties *)

(** ** Facts on the string primitives *)

Module PyFacts.
Import Py.

Lemma len_nonneg (t : pystr) : 0 <= len t.
Proof. unfold len; lia. Qed.

Lemma len_app (a b : pystr) : len (a ++ b) = len a + len b.
Proof. unfold len; rewrite length_app; lia. Qed.

Lemma adjust_index_range n i : 0 <= n -> 0 <= adjust_index n i <= n.
Proof. unfold adjust_index; destruct (i <? 0) eqn:E; lia. Qed.

Lemma len_slice (t : pystr) i j :
  len (slice t i j)
  = Z.max 0 (adjust_index (len t) j - adjust_index (len t) i).
Proof.
  unfold slice.
  pose proof (adjust_index_range (len t) i (len_nonneg t)) as Hi.
  pose proof (adjust_index_range (len t) j (len_nonneg t)) as Hj.
  unfold len in *; rewrite length_firstn, length_skipn; lia.
Qed.

Lemma In_zrange lo hi p : In p (zrange lo hi) <-> lo <= p < hi.
Proof.
  unfold zrange; rewrite in_map_iff; split.
  - intros (k & <- & Hk); apply in_seq in Hk; lia.
  - intros H; exists (Z.to_nat (p - lo)); split; [lia|].
    apply in_seq; lia.
Qed.

Lemma NoDup_zrange lo hi : NoDup (zrange lo hi).
Proof.
  unfold zrange; apply Injective_map_NoDup; [|apply seq_NoDup].
  intros a b; lia.
Qed.

Lemma length_zrange lo hi : Z.of_nat (List.length (zrange lo hi)) = Z.max 0 (hi - lo).
Proof. unfold zrange; rewrite length_map, length_seq; lia. Qed.

Lemma In_shared ps qs p : In p (shared ps qs) <-> In p ps /\ In p qs.
Proof.
  unfold shared; rewrite filter_In, existsb_exists; split.
  - intros (H1 & x & Hx & E); apply Z.eqb_eq in E; subst; auto.
  - intros (H1 & H2); split; auto; exists p; split; auto; apply Z.eqb_refl.
Qed.

(** The characters of a slice are those at its positions, in order. *)
Lemma firstn_skipn_seq (t : pystr) d : forall lo n,
  (lo + n <= List.length t)%nat ->
  firstn n (skipn lo t) = List.map (fun k => nth k t d) (seq lo n).
Proof.
  induction t as [|c t IH]; intros lo n H.
  - simpl in H; assert (lo = O) by lia; assert (n = O) by lia; subst; reflexivity.
  - destruct lo as [|lo].
    + destruct n as [|n]; [reflexivity|].
      simpl skipn. simpl firstn. simpl seq. simpl List.map. f_equal.
      rewrite <- seq_shift, map_map.
      specialize (IH O n); simpl skipn in IH. rewrite IH by (simpl in H; lia).
      reflexivity.
    + simpl skipn. rewrite IH by (simpl in H; lia).
      rewrite <- seq_shift, map_map. reflexivity.
Qed.

Lemma seq_from (n a : nat) : seq a n = List.map (Nat.add a) (seq 0 n).
Proof.
  revert a; induction n as [|n IH]; intros a; simpl; [reflexivity|].
  f_equal; [lia|].
  rewrite (IH (S a)), (IH 1%nat), map_map. apply map_ext; intros; lia.
Qed.

Lemma slice_chars (t : pystr) i j d :
  slice t i j
  = List.map (fun p => nth (Z.to_nat p) t d) (slice_positions (len t) i j).
Proof.
  unfold slice, slice_positions, zrange.
  pose proof (adjust_index_range (len t) i (len_nonneg t)) as Hi.
  pose proof (adjust_index_range (len t) j (len_nonneg t)) as Hj.
  set (lo := adjust_index (len t) i) in *.
  set (hi := adjust_index (len t) j) in *.
  rewrite map_map.
  destruct (Z_le_gt_dec hi lo) as [Hle|Hgt].
  - replace (Z.to_nat (hi - lo)) with O by lia; reflexivity.
  - rewrite (firstn_skipn_seq t d) by (unfold len in *; lia).
    rewrite seq_from, map_map.
    apply map_ext; intros k. f_equal. lia.
Qed.

Lemma rindex_lt c l k : rindex c l = Some k -> (k < List.length l)%nat.
Proof.
  revert k; induction l as [|x r IH]; intros k; simpl; [discriminate|].
  destruct (rindex c r) as [k'|].
  - intros [= <-]; specialize (IH k' eq_refl); lia.
  - destruct (x =? c)%N; [intros [= <-]; lia | discriminate].
Qed.

Lemma rfind_range c t i j :
  rfind c t i j = -1 \/
  adjust_index (len t) i <= rfind c t i j < adjust_index (len t) j.
Proof.
  unfold rfind; destruct (rindex c (slice t i j)) as [k|] eqn:E; [right|left; reflexivity].
  apply rindex_lt in E.
  pose proof (len_slice t i j) as L; unfold len in L at 1. lia.
Qed.

Lemma rindex_absent c l : ~ In c l -> rindex c l = None.
Proof.
  induction l as [|x r IH]; intros H; simpl; [reflexivity|].
  rewrite IH by (intros Hin; apply H; right; exact Hin).
  destruct (N.eqb_spec x c) as [->|]; [|reflexivity].
  exfalso; apply H; left; reflexivity.
Qed.

Lemma In_slice c (t : pystr) i j : In c (slice t i j) -> In c t.
Proof.
  unfold slice; intros H.
  set (lo := Z.to_nat (adjust_index (len t) i)) in *.
  rewrite <- (firstn_skipn lo t). apply in_or_app; right.
  set (u := skipn lo t) in *.
  rewrite <- (firstn_skipn (Z.to_nat (adjust_index (len t) j - adjust_index (len t) i)) u).
  apply in_or_app; left; exact H.
Qed.

Lemma rfind_absent c t i j : ~ In c t -> rfind c t i j = -1.
Proof.
  intros H; unfold rfind. rewrite rindex_absent; [reflexivity|].
  intros Hin; apply H, (In_slice _ _ _ _ Hin).
Qed.

Lemma lstrip_suffix t : exists a, t = a ++ lstrip t.
Proof.
  induction t as [|c r [a Ha]]; [exists []; reflexivity|].
  simpl; destruct (isspace c).
  - exists (c :: a); simpl; f_equal; exact Ha.
  - exists []; reflexivity.
Qed.

(** [strip] keeps a contiguous part of the string. *)
Lemma strip_middle t : exists a b, t = a ++ strip t ++ b.
Proof.
  unfold strip.
  destruct (lstrip_suffix t) as [a Ha].
  destruct (lstrip_suffix (rev (lstrip t))) as [b Hb].
  exists a, (rev b).
  rewrite <- rev_app_distr, <- Hb, rev_involutive. exact Ha.
Qed.

Lemma len_strip t : len (strip t) <= len t.
Proof.
  destruct (strip_middle t) as (a & b & H).
  rewrite H at 2. rewrite !len_app.
  pose proof (len_nonneg a); pose proof (len_nonneg b); lia.
Qed.

Lemma truthy_nonempty t : truthy t = true <-> t <> [].
Proof. destruct t; simpl; split; congruence. Qed.

End PyFacts.

(** ** The chunker *)

Module IngestFacts.
Import Py Clients Ingest Examples PyFacts.

Lemma chunk_loop_eq fuel text st :
  chunk_loop fuel text st =
  if start st <? len text then
    match fuel with
    | O => None
    | S fuel' => chunk_loop fuel' text (loop_body text st)
    end
  else Some (chunks st).
Proof. destruct fuel; reflexivity. Qed.

Lemma start_loop_body text st :
  start (loop_body text st) = segment_end text (start st) - CHUNK_OVERLAP.
Proof. reflexivity. Qed.

(** The loop returns the chunks of the state it stops in. *)
Lemma chunk_loop_iter fuel : forall text st cs,
  chunk_loop fuel text st = Some cs ->
  cs = chunks (loop_iter fuel text st)
  /\ len text <= start (loop_iter fuel text st).
Proof.
  induction fuel as [|fuel IH]; intros text st cs; rewrite chunk_loop_eq; simpl loop_iter.
  - destruct (start st <? len text) eqn:E; [discriminate|].
    intros [= <-]; split; [reflexivity | lia].
  - destruct (start st <? len text) eqn:E.
    + apply IH.
    + intros [= <-]; split; [reflexivity | lia].
Qed.

(** More fuel does not change a result. *)
Lemma chunk_loop_more_fuel fuel : forall text st cs k,
  chunk_loop fuel text st = Some cs ->
  chunk_loop (fuel + k) text st = Some cs.
Proof.
  induction fuel as [|fuel IH]; intros text st cs k;
    rewrite (chunk_loop_eq _ text st), (chunk_loop_eq (_ + k) text st);
    destruct (start st <? len text) eqn:E; try discriminate; try (intros H; exact H).
  simpl Nat.add. apply IH.
Qed.

(** *** Bounds on the loop *)

Lemma segment_end_cases text s :
  segment_end text s = s + CHUNK_SIZE
  \/ (s + CHUNK_SIZE < len text /\ s < segment_end text s
      /\ segment_end text s = rfind newline text s (s + CHUNK_SIZE)).
Proof.
  unfold segment_end.
  destruct (s + CHUNK_SIZE <? len text) eqn:E; [|left; reflexivity].
  destruct (rfind newline text s (s + CHUNK_SIZE) >? s) eqn:G; [|left; reflexivity].
  right; repeat split; lia.
Qed.

Lemma segment_end_gt text s : s < segment_end text s.
Proof.
  destruct (segment_end_cases text s) as [-> | (_ & H & _)];
    unfold CHUNK_SIZE; lia.
Qed.

(** The slice of one iteration is at most [CHUNK_SIZE] long once
    [start] is not below [-(CHUNK_SIZE + 1)]. *)
Lemma len_segment text s :
  - (CHUNK_SIZE + 1) <= s ->
  len (slice text s (segment_end text s)) <= CHUNK_SIZE.
Proof.
  intros Hs. rewrite len_slice.
  pose proof (len_nonneg text) as HL.
  destruct (segment_end_cases text s) as [-> | (Hlt & Hgt & E0)];
    [|rewrite E0 in *; clear E0].
  - unfold adjust_index, CHUNK_SIZE in *.
    destruct (s <? 0) eqn:E1, (s + 500 <? 0) eqn:E2; lia.
  - destruct (rfind_range newline text s (s + CHUNK_SIZE)) as [E | [H1 H2]].
    + rewrite E in *. unfold adjust_index, CHUNK_SIZE in *.
      change (-1 <? 0) with true; cbv iota.
      destruct (s <? 0) eqn:E1; lia.
    + pose proof (adjust_index_range (len text) s HL).
      pose proof (adjust_index_range (len text) (s + CHUNK_SIZE) HL).
      set (bp := rfind newline text s (s + CHUNK_SIZE)) in *.
      assert (adjust_index (len text) bp = bp) as ->
        by (unfold adjust_index; destruct (bp <? 0) eqn:E; lia).
      unfold adjust_index, CHUNK_SIZE in *.
      destruct (s <? 0) eqn:E1, (s + 500 <? 0) eqn:E2; lia.
Qed.

Lemma loop_inv_init : loop_inv init.
Proof. split; [unfold CHUNK_OVERLAP; simpl; lia | constructor]. Qed.

Lemma loop_inv_body text st : loop_inv st -> loop_inv (loop_body text st).
Proof.
  intros [Hs Hc]; split.
  - rewrite start_loop_body.
    destruct (segment_end_cases text (start st)) as [-> | (_ & Hgt & E)].
    + unfold CHUNK_SIZE, CHUNK_OVERLAP in *; lia.
    + destruct (rfind_range newline text (start st) (start st + CHUNK_SIZE))
        as [E1 | [H1 _]].
      * rewrite E, E1; unfold CHUNK_OVERLAP; lia.
      * pose proof (adjust_index_range (len text) (start st) (len_nonneg text)).
        rewrite E; unfold CHUNK_OVERLAP; lia.
  - unfold loop_body; simpl chunks.
    destruct (truthy _) eqn:T; [|exact Hc].
    apply Forall_app; split; [exact Hc|].
    constructor; [|constructor]. split.
    + apply truthy_nonempty; exact T.
    + etransitivity; [apply len_strip|].
      apply len_segment. unfold CHUNK_SIZE, CHUNK_OVERLAP in *; lia.
Qed.

Lemma loop_inv_iter n : forall text st,
  loop_inv st -> loop_inv (loop_iter n text st).
Proof.
  induction n as [|n IH]; intros text st H; simpl; [exact H|].
  destruct (start st <? len text); [|exact H].
  apply IH, loop_inv_body, H.
Qed.

(** The segments listed by [segments] are those of the loop states. *)
Lemma segments_loop_iter n : forall text st k a b,
  nth_error (segments n text (start st)) k = Some (a, b) ->
  a = start (loop_iter k text st) /\ b = segment_end text a.
Proof.
  induction n as [|n IH]; intros text st k a b; simpl.
  - destruct k; discriminate.
  - destruct (start st <? len text) eqn:E; [|destruct k; discriminate].
    destruct k as [|k]; simpl.
    + intros [= <- <-]; split; reflexivity.
    + rewrite E. rewrite <- start_loop_body. apply IH.
Qed.

(** Without a newline in the text every iteration advances [start] by
    [CHUNK_SIZE - CHUNK_OVERLAP], and the loop returns. *)
Lemma chunk_loop_terminates_without_newline text :
  ~ In newline text ->
  forall fuel st,
    0 <= start st ->
    len text - start st <= (CHUNK_SIZE - CHUNK_OVERLAP) * Z.of_nat fuel ->
    exists cs, chunk_loop fuel text st = Some cs.
Proof.
  intros Hnl. induction fuel as [|fuel IH]; intros st H0 Hm;
    rewrite chunk_loop_eq; destruct (start st <? len text) eqn:E;
    try (eexists; reflexivity).
  - unfold CHUNK_SIZE, CHUNK_OVERLAP in Hm; lia.
  - apply IH; rewrite start_loop_body; unfold segment_end;
      rewrite (rfind_absent _ _ _ _ Hnl);
      destruct (start st + CHUNK_SIZE <? len text);
      try (destruct (-1 >? start st) eqn:G; [lia|]);
      unfold CHUNK_SIZE, CHUNK_OVERLAP in *; lia.
Qed.

(** A text without a newline is chunked in at most [len(text)]
    iterations. *)
Theorem chunk_text_terminates_without_newline text :
  ~ In newline text ->
  exists cs, chunk_text (List.length text) text = Some cs.
Proof.
  intros Hnl. apply chunk_loop_terminates_without_newline; [exact Hnl| |].
  - simpl; lia.
  - unfold len, CHUNK_SIZE, CHUNK_OVERLAP; simpl start; lia.
Qed.

Lemma chunk_text_terminates_without_newline_witness :
  exists cs, chunk_text 1000 plain_text = Some cs.
Proof.
  apply (chunk_text_terminates_without_newline plain_text).
  unfold plain_text; intros H; apply repeat_spec in H; discriminate.
Defined.

(** C1, failing on the code. The claim: for every text [chunk_text]
    terminates. On [loop_text] (a first line of 100 characters before
    500 characters without a newline) the first iteration breaks at the
    newline, [end = 100], and sets [start = end - CHUNK_OVERLAP = 0]:
    the loop is back in its initial position, and no amount of fuel
    lets [chunk_text] return. *)
Theorem chunk_text_loop_text_diverges :
  start (loop_body loop_text init) = start init
  /\ forall fuel, chunk_text fuel loop_text = None.
Proof.
  split; [vm_compute; reflexivity|].
  assert (G : forall fuel st, start st = 0 -> chunk_loop fuel loop_text st = None).
  { induction fuel as [|fuel IH]; intros st H; rewrite chunk_loop_eq, H;
      change (0 <? len loop_text) with true; cbv iota; [reflexivity|].
    apply IH. rewrite start_loop_body, H. vm_compute; reflexivity. }
  intros fuel; apply G; reflexivity.
Qed.

(** C5, failing on the code. The claim: every character of the text
    lies in a segment visited by the loop, so every non-whitespace
    character appears in some chunk. On [gap_text] the loop returns
    after three iterations with two chunks; the second iteration starts
    at [-1], where [text[-1:499]] is the empty string, and the third
    starts at [399]. The character [X] at position 200 is not
    whitespace, no slice taken by the loop contains position 200, and
    no chunk contains [X]. *)
Theorem chunk_text_gap_text_misses_char :
  chunk_text 3 gap_text = Some [repeat 97%N 99; repeat 98%N 201]
  /\ segments 3 gap_text 0 = [(0, 99); (-1, 499); (399, 899)]
  /\ nth 200 gap_text 0%N = 88%N
  /\ isspace 88%N = false
  /\ Forall (fun seg => ~ In 200 (slice_positions (len gap_text) (fst seg) (snd seg)))
       (segments 3 gap_text 0)
  /\ Forall (fun c => ~ In 88%N c) [repeat 97%N 99; repeat 98%N 201].
Proof.
  split; [vm_compute; reflexivity|].
  split; [vm_compute; reflexivity|].
  split; [reflexivity|].
  split; [reflexivity|].
  split.
  - replace (segments 3 gap_text 0) with [(0, 99); (-1, 499); (399, 899)]
      by (vm_compute; reflexivity).
    change (len gap_text) with 600.
    repeat constructor; unfold slice_positions; rewrite In_zrange;
      vm_compute; intros [H1 H2]; congruence.
  - repeat constructor; intros H; apply repeat_spec in H; discriminate.
Qed.

Lemma shared_bound n i j i' j' :
  0 <= n ->
  Z.of_nat (List.length (shared (slice_positions n i j) (slice_positions n i' j')))
  <= Z.max 0 (adjust_index n j - adjust_index n i').
Proof.
  intros Hn.
  rewrite <- length_zrange.
  apply inj_le, NoDup_incl_length.
  - apply NoDup_filter, NoDup_zrange.
  - intros p Hp; apply In_shared in Hp; destruct Hp as [H1 H2].
    unfold slice_positions in *; rewrite In_zrange in *. lia.
Qed.

(** C6. In every iteration of the loop that uses the tentative end
    [start + CHUNK_SIZE] as its end (no newline adjustment), the slice
    of this iteration and the slice of the next one have at most
    [CHUNK_OVERLAP] positions of the text in common. The chunks are
    these slices stripped ([strip_middle]: a contiguous part of the
    slice), so they share no more. *)
Theorem consecutive_segments_overlap text n :
  let st := loop_iter n text init in
  let st' := loop_body text st in
  segment_end text (start st) = start st + CHUNK_SIZE ->
  Z.of_nat (List.length
    (shared
       (slice_positions (len text) (start st) (segment_end text (start st)))
       (slice_positions (len text) (start st') (segment_end text (start st')))))
  <= CHUNK_OVERLAP.
Proof.
  intros st st' H.
  etransitivity; [apply shared_bound, len_nonneg|].
  unfold st'; rewrite start_loop_body, H.
  pose proof (len_nonneg text).
  unfold adjust_index, CHUNK_SIZE, CHUNK_OVERLAP.
  destruct (start st + 500 <? 0) eqn:E1, (start st + 500 - 100 <? 0) eqn:E2; lia.
Qed.

Lemma consecutive_segments_overlap_witness :
  segment_end plain_text 0 = 0 + CHUNK_SIZE
  /\ Z.of_nat (List.length
       (shared (slice_positions (len plain_text) 0 500)
               (slice_positions (len plain_text) 400 900))) <= CHUNK_OVERLAP.
Proof.
  split; [vm_compute; reflexivity|].
  apply (consecutive_segments_overlap plain_text 0). vm_compute; reflexivity.
Defined.

(** C7. The empty text yields the empty sequence, whatever the fuel;
    every chunk collected by the loop, after any number of iterations,
    is a non-empty string; so is every chunk of a sequence that
    [chunk_text] returns. *)
Theorem chunk_text_chunks_nonempty fuel text :
  chunk_text fuel [] = Some []
  /\ Forall (fun c => c <> []) (chunks (loop_iter fuel text init))
  /\ forall cs, chunk_text fuel text = Some cs -> Forall (fun c => c <> []) cs.
Proof.
  assert (G : Forall (fun c => c <> []) (chunks (loop_iter fuel text init))).
  { destruct (loop_inv_iter fuel text init loop_inv_init) as [_ H].
    eapply Forall_impl; [|exact H]. intros c [Hc _]; exact Hc. }
  split; [destruct fuel; reflexivity|].
  split; [exact G|].
  intros cs H; apply chunk_loop_iter in H; destruct H as [-> _]; exact G.
Qed.

Lemma chunk_text_chunks_nonempty_witness :
  Forall (fun c => c <> [])
    [repeat 97%N 300; repeat 97%N 100 ++ [newline] ++ repeat 98%N 300; [98%N]].
Proof.
  apply (proj2 (proj2 (chunk_text_chunks_nonempty 3 two_lines))).
  vm_compute; reflexivity.
Defined.

(** The fuel is only a bound on the number of iterations: two runs on
    the same text that return, with whatever fuel each, return the same
    chunk sequence. *)
Lemma chunk_text_fuel_independent text fuel1 fuel2 cs1 cs2 :
  chunk_text fuel1 text = Some cs1 ->
  chunk_text fuel2 text = Some cs2 ->
  cs1 = cs2.
Proof.
  unfold chunk_text; intros H1 H2.
  apply (chunk_loop_more_fuel _ _ _ _ fuel2) in H1.
  apply (chunk_loop_more_fuel _ _ _ _ fuel1) in H2.
  rewrite Nat.add_comm in H2. congruence.
Qed.

(** C10. Every chunk collected by the loop, after any number of
    iterations, has at most [CHUNK_SIZE] characters; so has every chunk
    of a sequence that [chunk_text] returns. *)
Theorem chunk_text_chunks_at_most_size fuel text :
  Forall (fun c => len c <= CHUNK_SIZE) (chunks (loop_iter fuel text init))
  /\ forall cs, chunk_text fuel text = Some cs ->
       Forall (fun c => len c <= CHUNK_SIZE) cs.
Proof.
  assert (G : Forall (fun c => len c <= CHUNK_SIZE) (chunks (loop_iter fuel text init))).
  { destruct (loop_inv_iter fuel text init loop_inv_init) as [_ H].
    eapply Forall_impl; [|exact H]. intros c [_ Hc]; exact Hc. }
  split; [exact G|].
  intros cs H; apply chunk_loop_iter in H; destruct H as [-> _]; exact G.
Qed.

Lemma chunk_text_chunks_at_most_size_witness :
  Forall (fun c => len c <= CHUNK_SIZE)
    [repeat 97%N 300; repeat 97%N 100 ++ [newline] ++ repeat 98%N 300; [98%N]].
Proof.
  apply (proj2 (chunk_text_chunks_at_most_size 3 two_lines)).
  vm_compute; reflexivity.
Defined.

End IngestFacts.

(** ** Rounding of scores *)

Module PyFloatFacts.
Import PyFloat.
Open Scope Q_scope.

Lemma floor_le_round_half_even q : (Qfloor q <= round_half_even q)%Z.
Proof.
  unfold round_half_even.
  destruct (Qcompare _ _); [destruct (Z.even _)|..]; lia.
Qed.

Lemma round_half_even_ge z q :
  inject_Z z - (1 # 2) < q -> (z <= round_half_even q)%Z.
Proof.
  intros H.
  pose proof (Qlt_floor q) as Hf. pose proof (floor_le_round_half_even q) as Hr.
  destruct (Z_le_gt_dec z (Qfloor q)) as [L|G]; [lia|].
  assert (E : z = (Qfloor q + 1)%Z).
  { destruct (Z_le_gt_dec z (Qfloor q + 1)) as [L'|G']; [lia|].
    assert (Hz : inject_Z (Qfloor q + 1 + 1) <= inject_Z z)
      by (rewrite <- Zle_Qle; lia).
    rewrite inject_Z_plus in Hz. change (inject_Z 1) with 1 in Hz. lra. }
  subst z. rewrite inject_Z_plus in H. change (inject_Z 1) with 1 in H.
  unfold round_half_even.
  destruct (Qcompare_spec (q - inject_Z (Qfloor q)) (1 # 2)) as [C|C|C];
    try lra. lia.
Qed.

Lemma round_half_even_ge_int z q :
  inject_Z z <= q -> (z <= round_half_even q)%Z.
Proof. intros H; apply round_half_even_ge; lra. Qed.

Lemma to_double_three_tenths : to_double (3 # 10) == three_tenths.
Proof. vm_compute; reflexivity. Qed.

Lemma pow2_m54 : 2 ^ (-54) == 1 # 18014398509481984.
Proof. reflexivity. Qed.

Lemma nearest_double_ge_three_tenths d :
  3 # 10 <= d -> three_tenths <= nearest_double_nonneg d.
Proof.
  intros Hd. unfold nearest_double_nonneg, ulp_exp.
  set (S := inject_Z (2 ^ 1074)).
  set (F := Qfloor (d * S)).
  assert (HS : 0 < S) by reflexivity.
  assert (HF0 : (Qfloor ((3 # 10) * S) <= F)%Z).
  { apply Qfloor_resp_le, Qmult_le_compat_r; [exact Hd | apply Qlt_le_weak, HS]. }
  assert (Hlog : (1072 <= Z.log2 F)%Z).
  { etransitivity; [|apply Z.log2_le_mono, HF0]. vm_compute; discriminate. }
  assert (HFpos : (0 < F)%Z).
  { eapply Z.lt_le_trans; [|exact HF0]. vm_compute; reflexivity. }
  replace (Z.max (Z.log2 F - 1126) (-1074)) with (Z.log2 F - 1126)%Z by lia.
  destruct (Z.eq_dec (Z.log2 F) 1072) as [E|NE].
  - rewrite E. change (1072 - 1126)%Z with (-54)%Z.
    set (k := round_half_even (d / 2 ^ (-54))).
    assert (Hk : (5404319552844595 <= k)%Z).
    { apply round_half_even_ge_int. apply Qle_shift_div_l; [reflexivity|].
      rewrite pow2_m54. unfold three_tenths in *.
      eapply Qle_trans; [|exact Hd]. vm_compute; discriminate. }
    rewrite Zle_Qle in Hk. rewrite pow2_m54.
    unfold three_tenths.
    eapply Qle_trans; [|apply Qmult_le_compat_r; [exact Hk | discriminate]].
    vm_compute; discriminate.
  - set (e := (Z.log2 F - 1126)%Z).
    assert (He : (-53 <= e)%Z) by (unfold e; lia).
    set (P := 2 ^ e).
    assert (HP : 0 < P) by (apply Qpower_0_lt; reflexivity).
    assert (HP' : 2 ^ (-53) <= P)
      by (apply Qpower_le_compat_l; [exact He | discriminate]).
    assert (Hlow : inject_Z (2 ^ 52) * P <= d).
    { destruct (Z.log2_spec F HFpos) as [Hl _].
      replace (Z.log2 F) with (e + 53 + 1073)%Z in Hl by (unfold e; lia).
      rewrite Z.pow_add_r in Hl by lia.
      pose proof (Qfloor_le (d * S)) as Hfl. fold F in Hfl.
      rewrite Zle_Qle, inject_Z_mult in Hl.
      rewrite Zpower_Qpower in Hl by lia.
      change (inject_Z 2) with 2 in Hl.
      rewrite Qpower_plus in Hl by discriminate. fold P in Hl.
      assert (HS' : S == 2 * inject_Z (2 ^ 1073)) by reflexivity.
      set (T := inject_Z (2 ^ 1073)) in *.
      assert (HT : 0 < T) by reflexivity.
      assert (H53 : (2:Q) ^ 53 == 2 * inject_Z (2 ^ 52)) by reflexivity.
      set (U := inject_Z (2 ^ 52)) in *.
      rewrite H53 in Hl. rewrite HS' in Hfl.
      assert (Hm : (U * P) * (2 * T) <= d * (2 * T)).
      { eapply Qle_trans; [|exact Hfl]. eapply Qle_trans; [|exact Hl].
        apply Qle_lteq; right; ring. }
      apply Qmult_le_r in Hm; [exact Hm|]. lra. }
    set (k := round_half_even (d / P)).
    assert (Hk : (2 ^ 52 <= k)%Z).
    { apply round_half_even_ge_int, Qle_shift_div_l; assumption. }
    rewrite Zle_Qle in Hk.
    eapply Qle_trans; [|apply Qmult_le_compat_r; [exact Hk | apply Qlt_le_weak, HP]].
    eapply Qle_trans; [|apply Qmult_le_l; [reflexivity | exact HP']].
    vm_compute; discriminate.
Qed.

Lemma to_double_ge_three_tenths d :
  3 # 10 <= d -> three_tenths <= to_double d.
Proof.
  intros Hd. unfold to_double.
  destruct (Qcompare_spec d 0) as [C|C|C];
    try (apply nearest_double_ge_three_tenths; exact Hd).
  lra.
Qed.

(** Rounding to three decimals keeps a score at or above the double
    [0.3]. *)
Lemma round3_ge_three_tenths x :
  three_tenths <= x -> three_tenths <= round x 3.
Proof.
  intros Hx. unfold round. change (inject_Z (10 ^ 3)) with (1000 # 1).
  apply to_double_ge_three_tenths.
  apply Qle_shift_div_l; [reflexivity|].
  assert (E : (3 # 10) * (1000 # 1) == inject_Z 300) by reflexivity.
  rewrite E, <- Zle_Qle. apply round_half_even_ge.
  unfold three_tenths in Hx.
  eapply Qlt_le_trans; [|apply Qmult_le_compat_r; [exact Hx | discriminate]].
  vm_compute; reflexivity.
Qed.

End PyFloatFacts.

(** ** Retrieval, context, prompt and orchestration *)

Module ChatFacts.
Import Py Clients Chat Examples PyFacts PyFloatFacts.

Lemma pystr_eqb_eq a b : pystr_eqb a b = true <-> a = b.
Proof.
  unfold pystr_eqb; destruct (list_eq_dec N.eq_dec a b); split; congruence.
Qed.

Lemma pystr_eqb_refl a : pystr_eqb a a = true.
Proof. apply pystr_eqb_eq; reflexivity. Qed.

Lemma pystr_eqb_neq a b : pystr_eqb a b = false <-> a <> b.
Proof.
  unfold pystr_eqb; destruct (list_eq_dec N.eq_dec a b); split; congruence.
Qed.

Lemma pystr_eqb_sym a b : pystr_eqb a b = pystr_eqb b a.
Proof.
  unfold pystr_eqb.
  destruct (list_eq_dec N.eq_dec a b), (list_eq_dec N.eq_dec b a); congruence.
Qed.

(** *** Grouping *)

Lemma In_first_seen n names : In n (first_seen names) <-> In n names.
Proof.
  induction names as [|m rest IH]; simpl; [tauto|].
  rewrite filter_In, IH, negb_true_iff, pystr_eqb_neq.
  destruct (list_eq_dec N.eq_dec m n); [tauto|].
  split; [tauto|]. intros [H|H]; [tauto|]. right; split; congruence.
Qed.

Lemma NoDup_first_seen names : NoDup (first_seen names).
Proof.
  induction names as [|m rest IH]; simpl; constructor.
  - rewrite filter_In, negb_true_iff, pystr_eqb_neq; tauto.
  - apply NoDup_filter, IH.
Qed.

Lemma first_seen_snoc names n :
  first_seen (names ++ [n]) =
  if existsb (fun m => pystr_eqb m n) names then first_seen names
  else first_seen names ++ [n].
Proof.
  induction names as [|a rest IH]; simpl; [reflexivity|].
  rewrite IH.
  destruct (pystr_eqb a n) eqn:Ea; simpl.
  - apply pystr_eqb_eq in Ea; subst a.
    destruct (existsb _ rest); [reflexivity|].
    rewrite filter_app; simpl. rewrite pystr_eqb_refl; simpl.
    rewrite app_nil_r; reflexivity.
  - destruct (existsb _ rest); [reflexivity|].
    rewrite filter_app; simpl.
    replace (pystr_eqb n a) with false; [reflexivity|].
    symmetry; apply pystr_eqb_neq; apply pystr_eqb_neq in Ea; congruence.
Qed.

Lemma hits_of_snoc name chunks c :
  hits_of name (chunks ++ [c]) =
  hits_of name chunks ++ (if pystr_eqb (candidate c) name then [c] else []).
Proof. unfold hits_of; rewrite filter_app; reflexivity. Qed.

Lemma existsb_pystr_eqb key names :
  existsb (fun m => pystr_eqb m key) names = true <-> In key names.
Proof.
  rewrite existsb_exists; split.
  - intros (m & Hm & E); apply pystr_eqb_eq in E; subst; exact Hm.
  - intros H; exists key; split; [exact H | apply pystr_eqb_refl].
Qed.

Lemma existsb_first_seen key names :
  existsb (fun m => pystr_eqb m key) (first_seen names)
  = existsb (fun m => pystr_eqb m key) names.
Proof.
  destruct (existsb _ names) eqn:E.
  - apply existsb_pystr_eqb, In_first_seen, existsb_pystr_eqb, E.
  - destruct (existsb _ (first_seen names)) eqn:E'; [|reflexivity].
    rewrite existsb_pystr_eqb, In_first_seen, <- existsb_pystr_eqb in E'.
    congruence.
Qed.

(** Appending a hit to a dict whose keys are distinct. *)
Lemma setdefault_append_spec key c (f g : pystr -> list hit) :
  (forall n, g n = f n ++ (if pystr_eqb n key then [c] else [])) ->
  forall names, NoDup names -> (~ In key names -> f key = []) ->
  setdefault_append key c (List.map (fun n => (n, f n)) names) =
  List.map (fun n => (n, g n))
    (if existsb (fun m => pystr_eqb m key) names then names else names ++ [key]).
Proof.
  intros Hg; induction names as [|a rest IH]; intros ND H0; simpl.
  - rewrite Hg, pystr_eqb_refl, H0 by tauto. reflexivity.
  - inversion ND as [|? ? Ha ND']; subst.
    destruct (pystr_eqb a key) eqn:Ea; simpl.
    + apply pystr_eqb_eq in Ea; subst a.
      rewrite Hg, pystr_eqb_refl. f_equal.
      apply map_ext_in; intros n Hn. rewrite Hg.
      replace (pystr_eqb n key) with false; [rewrite app_nil_r; reflexivity|].
      symmetry; apply pystr_eqb_neq; intros ->; contradiction.
    + rewrite IH; [|exact ND'|].
      * destruct (existsb _ rest); simpl;
          rewrite (Hg a), Ea, app_nil_r; reflexivity.
      * intros Hk; apply H0. apply pystr_eqb_neq in Ea.
        simpl; intros [E|E]; [congruence | contradiction].
Qed.

Lemma group_by_candidate_snoc chunks c :
  group_by_candidate (chunks ++ [c])
  = setdefault_append (candidate c) c (group_by_candidate chunks).
Proof. unfold group_by_candidate; rewrite fold_left_app; reflexivity. Qed.

Lemma hits_of_absent name chunks :
  ~ In name (List.map candidate chunks) -> hits_of name chunks = [].
Proof.
  intros H; unfold hits_of.
  induction chunks as [|c rest IH]; simpl; [reflexivity|].
  destruct (pystr_eqb (candidate c) name) eqn:E.
  - apply pystr_eqb_eq in E; exfalso; apply H; left; exact E.
  - apply IH; intros Hin; apply H; right; exact Hin.
Qed.

(** The dict built by the first loop is the grouping of the
    specification. *)
Lemma group_by_candidate_spec chunks :
  group_by_candidate chunks = grouped_spec chunks.
Proof.
  induction chunks as [|c chunks IH] using rev_ind; [reflexivity|].
  rewrite group_by_candidate_snoc, IH. unfold grouped_spec.
  rewrite (setdefault_append_spec (candidate c) c
             (fun n => hits_of n chunks) (fun n => hits_of n (chunks ++ [c]))).
  - rewrite map_app; simpl List.map. rewrite first_seen_snoc, existsb_first_seen.
    reflexivity.
  - intros n; rewrite hits_of_snoc, pystr_eqb_sym; reflexivity.
  - apply NoDup_first_seen.
  - intros H; apply hits_of_absent; rewrite <- In_first_seen; exact H.
Qed.

(** *** The parts of a join *)

Lemma join_cons sep (p q : pystr) rest :
  join sep (p :: q :: rest) = p ++ sep ++ join sep (q :: rest).
Proof. reflexivity. Qed.

Lemma join_app sep (l1 l2 : list pystr) :
  l1 <> [] -> l2 <> [] ->
  join sep (l1 ++ l2) = join sep l1 ++ sep ++ join sep l2.
Proof.
  intros H1 H2. destruct l2 as [|q l2]; [congruence|]. clear H2.
  induction l1 as [|p l1 IH]; [congruence|]. clear H1.
  destruct l1 as [|p' l1].
  - reflexivity.
  - change ((p :: p' :: l1) ++ q :: l2) with (p :: p' :: (l1 ++ q :: l2)).
    rewrite !join_cons.
    change (p' :: l1 ++ q :: l2) with ((p' :: l1) ++ q :: l2).
    rewrite IH by discriminate. rewrite <- !app_assoc. reflexivity.
Qed.

(** A non-empty run of consecutive parts is joined into one contiguous
    piece of the joined text. *)
Lemma join_middle sep (l1 l2 l3 : list pystr) :
  l2 <> [] ->
  exists pre post, join sep (l1 ++ l2 ++ l3) = pre ++ join sep l2 ++ post.
Proof.
  intros H2.
  assert (H23 : l2 ++ l3 <> []) by (destruct l2; [congruence | discriminate]).
  assert (E23 : exists post, join sep (l2 ++ l3) = join sep l2 ++ post).
  { destruct l3 as [|r l3].
    - exists []. rewrite !app_nil_r. reflexivity.
    - exists (sep ++ join sep (r :: l3)). apply join_app; [exact H2 | discriminate]. }
  destruct E23 as (post & E23).
  destruct l1 as [|p l1].
  - exists [], post. exact E23.
  - exists (join sep (p :: l1) ++ sep), post.
    rewrite join_app by (exact H23 || discriminate).
    rewrite E23, <- !app_assoc. reflexivity.
Qed.

Lemma hits_of_present name chunks :
  In name (List.map candidate chunks) -> hits_of name chunks <> [].
Proof.
  intros H. apply in_map_iff in H. destruct H as (c & E & Hc).
  assert (Hin : In c (hits_of name chunks)).
  { unfold hits_of. apply filter_In. split; [exact Hc|].
    apply pystr_eqb_eq; exact E. }
  intros N. rewrite N in Hin. exact Hin.
Qed.

(** C3. [build_context] groups the hits by candidate: the distinct
    candidate names are taken in the order they first appear in the
    input, no name twice, and they are exactly those of the input; the
    items of a name are all the hits of that name in input order; the
    text returned is, name after name, the label of the name (a rule
    of 50 equals signs, the line [CANDIDATE: name], a rule) followed
    by the text of each of its hits and an empty part, all joined by a
    newline; so the section of every name of the input, its label and
    all its hits, is one contiguous piece of the text, and it is
    never empty. *)
Theorem build_context_groups_by_first_appearance chunks :
  let names := List.map fst (group_by_candidate chunks) in
  let label := fun name : pystr =>
    repeat 61%N 50 ++ [10%N] ++ lit "CANDIDATE: " ++ name ++ [10%N]
    ++ repeat 61%N 50 in
  let section := fun name : pystr =>
    label name :: flat_map (fun item => [text item; []]) (hits_of name chunks) in
  names = first_seen (List.map candidate chunks)
  /\ NoDup names
  /\ (forall name, In name names <-> In name (List.map candidate chunks))
  /\ (forall name items, In (name, items) (group_by_candidate chunks) ->
        items = hits_of name chunks)
  /\ build_context chunks = join [10%N] (flat_map section names)
  /\ (forall name, In name (List.map candidate chunks) ->
        hits_of name chunks <> []
        /\ exists pre post,
             build_context chunks = pre ++ join [10%N] (section name) ++ post).
Proof.
  intros names label section.
  assert (E : names = first_seen (List.map candidate chunks)).
  { unfold names; rewrite group_by_candidate_spec; unfold grouped_spec.
    rewrite map_map; simpl; apply map_id. }
  assert (B : build_context chunks = join [10%N] (flat_map section names)).
  { unfold build_context. f_equal. rewrite E, group_by_candidate_spec.
    unfold grouped_spec. rewrite flat_map_concat_map, map_map.
    rewrite <- flat_map_concat_map. reflexivity. }
  split; [exact E|].
  split; [rewrite E; apply NoDup_first_seen|].
  split; [intros name; rewrite E; apply In_first_seen|].
  split.
  - intros name items; rewrite group_by_candidate_spec; unfold grouped_spec.
    rewrite in_map_iff; intros (n & [= <- <-] & _); reflexivity.
  - split; [exact B|].
    intros name Hin. split; [apply hits_of_present; exact Hin|].
    assert (Hn : In name names) by (rewrite E; apply In_first_seen; exact Hin).
    apply in_split in Hn. destruct Hn as (n1 & n2 & Hn).
    rewrite B, Hn, flat_map_app. cbn [flat_map].
    apply join_middle. discriminate.
Qed.

Lemma build_context_groups_witness :
  List.map fst (group_by_candidate [hit_ana_0; hit_bob_0; hit_ana_1])
  = [lit "ana"; lit "bob"]
  /\ (forall items,
       In (lit "ana", items) (group_by_candidate [hit_ana_0; hit_bob_0; hit_ana_1]) ->
       items = [hit_ana_0; hit_ana_1])
  /\ exists pre post,
       build_context [hit_ana_0; hit_bob_0; hit_ana_1]
       = pre
         ++ join [10%N]
              [ repeat 61%N 50 ++ [10%N] ++ lit "CANDIDATE: bob" ++ [10%N]
                ++ repeat 61%N 50;
                text hit_bob_0; [] ]
         ++ post.
Proof.
  destruct (build_context_groups_by_first_appearance
              [hit_ana_0; hit_bob_0; hit_ana_1]) as (H1 & _ & _ & H4 & _ & H6).
  split; [exact H1|].
  split; [intros items Hin; exact (H4 _ _ Hin)|].
  destruct (H6 (lit "bob")) as (_ & pre & post & H).
  - right; left; reflexivity.
  - exists pre, post. exact H.
Defined.

(** *** Prompt *)










(** *** Short circuit *)

Lemma retrieve_eq model question qdrant top_k tr :
  retrieve model question qdrant top_k tr
  = (List.map hit_of_point
       (search qdrant COLLECTION_NAME (embed_query model question) top_k
          SCORE_THRESHOLD),
     tr ++ [EvSearch COLLECTION_NAME (embed_query model question) top_k
              SCORE_THRESHOLD]).
Proof. reflexivity. Qed.

(** C2. When retrieval returns no hit, [rag] returns the fixed
    fallback answer and an empty chunk list, makes no call beyond those
    of retrieval, and adds no call of the model to the trace. *)
Theorem rag_short_circuit model question qdrant gemini_model history tr :
  fst (retrieve model question qdrant TOP_K tr) = [] ->
  fst (rag model question qdrant gemini_model history tr)
    = {| answer := NO_CONTENT_ANSWER; chunks := [] |}
  /\ snd (rag model question qdrant gemini_model history tr)
     = snd (retrieve model question qdrant TOP_K tr)
  /\ filter is_generate (snd (rag model question qdrant gemini_model history tr))
     = filter is_generate tr.
Proof.
  intros H. unfold rag, bind.
  destruct (retrieve model question qdrant TOP_K tr) as [hits tr'] eqn:E.
  simpl in H; subst hits. simpl.
  split; [reflexivity|]. split; [reflexivity|].
  rewrite retrieve_eq in E. injection E as _ <-.
  rewrite filter_app; simpl. apply app_nil_r.
Qed.

Lemma rag_short_circuit_witness :
  fst (rag null_embedder (lit "Who knows SQL?") empty_store echo_model None [])
  = {| answer := NO_CONTENT_ANSWER; chunks := [] |}
  /\ filter is_generate
       (snd (rag null_embedder (lit "Who knows SQL?") empty_store echo_model None []))
     = [].
Proof.
  destruct (rag_short_circuit null_embedder (lit "Who knows SQL?") empty_store
              echo_model None [] eq_refl) as (H1 & _ & H3).
  split; [exact H1 | exact H3].
Defined.

Lemma half_store_honors : honors_threshold half_store.
Proof.
  intros collection v limit threshold h; simpl.
  destruct (Qle_bool threshold (1 # 2)) eqn:E; [|contradiction].
  intros [<-|[]]; simpl. apply Qle_bool_iff, E.
Qed.

Lemma half_store_hit :
  In (hit_of_point half_point)
    (fst (retrieve null_embedder (lit "Who knows SQL?") half_store TOP_K [])).
Proof. vm_compute; left; reflexivity. Qed.

(** C4, as amended. [retrieve] takes no threshold argument: it passes
    the constant [SCORE_THRESHOLD] (the double [0.3]) to the search.
    When the vector store honours the threshold it is passed, no hit
    returned by [retrieve] has a score, as rounded to three decimals,
    below [SCORE_THRESHOLD]. *)
Theorem retrieve_scores_reach_threshold model question qdrant top_k tr hit :
  honors_threshold qdrant ->
  In hit (fst (retrieve model question qdrant top_k tr)) ->
  (SCORE_THRESHOLD <= score hit)%Q.
Proof.
  intros Hq Hin. rewrite retrieve_eq in Hin; simpl fst in Hin.
  apply in_map_iff in Hin; destruct Hin as (h & <- & Hh).
  apply Hq in Hh. simpl score.
  unfold SCORE_THRESHOLD in *. rewrite to_double_three_tenths in *.
  apply round3_ge_three_tenths, Hh.
Qed.

Lemma retrieve_scores_reach_threshold_witness :
  honors_threshold half_store
  /\ In (hit_of_point half_point)
       (fst (retrieve null_embedder (lit "Who knows SQL?") half_store TOP_K []))
  /\ (SCORE_THRESHOLD <= score (hit_of_point half_point))%Q.
Proof.
  split; [exact half_store_honors|]. split; [exact half_store_hit|].
  exact (retrieve_scores_reach_threshold _ _ _ _ _ _ half_store_honors
           half_store_hit).
Defined.

(** C4 as stated fails: the threshold of the claim is not an input of
    [retrieve]. With a threshold of [0.9], a store that honours the
    threshold it is passed ([0.3]) returns a point of score [0.5], and
    [retrieve] returns it. *)
Lemma retrieve_threshold_not_a_parameter :
  ~ (forall (score_threshold : Q) model question qdrant tr hit,
       honors_threshold qdrant ->
       In hit (fst (retrieve model question qdrant TOP_K tr)) ->
       (score_threshold <= score hit)%Q).
Proof.
  intros H.
  specialize (H (9 # 10)%Q null_embedder (lit "Who knows SQL?") half_store []
                (hit_of_point half_point) half_store_honors half_store_hit).
  vm_compute in H. apply H; reflexivity.
Qed.

End ChatFacts.

(** * More properties *)

(** ** The chunker *)

Module IngestExtra.
Import Py Clients Ingest Examples PyFacts IngestFacts IngestMore MoreExamples.

(** *** The chunks are the stripped, non-empty segments *)

Lemma chunks_loop_iter n : forall text st,
  chunks (loop_iter n text st)
  = chunks st ++ filter truthy (List.map (chunk_of text) (segments n text (start st))).
Proof.
  induction n as [|n IH]; intros text st; simpl.
  - rewrite app_nil_r; reflexivity.
  - destruct (start st <? len text) eqn:E; [|simpl; rewrite app_nil_r; reflexivity].
    rewrite IH, start_loop_body. simpl List.map. simpl filter.
    unfold loop_body at 1; simpl chunks. unfold chunk_of at 2; simpl fst; simpl snd.
    destruct (truthy _); [rewrite <- app_assoc|]; reflexivity.
Qed.

Lemma chunk_text_segments fuel text cs :
  chunk_text fuel text = Some cs ->
  cs = filter truthy (List.map (chunk_of text) (segments fuel text 0)).
Proof.
  intros H; apply chunk_loop_iter in H; destruct H as [-> _].
  rewrite chunks_loop_iter; reflexivity.
Qed.

(** *** Stripping *)

Lemma lstrip_spaces t :
  exists a, t = a ++ lstrip t /\ Forall (fun c => isspace c = true) a.
Proof.
  induction t as [|c r (a & Ha & Fa)]; [exists []; split; [reflexivity|constructor]|].
  simpl; destruct (isspace c) eqn:E.
  - exists (c :: a); split; [simpl; f_equal; exact Ha | constructor; assumption].
  - exists []; split; [reflexivity | constructor].
Qed.

Lemma lstrip_head t x : hd_error (lstrip t) = Some x -> isspace x = false.
Proof.
  induction t as [|c r IH]; simpl; [discriminate|].
  destruct (isspace c) eqn:E; [exact IH|]. simpl; intros [= <-]; exact E.
Qed.

(** [strip] removes whitespace only, from both ends. *)
Lemma strip_spaces t :
  exists a b, t = a ++ strip t ++ b
    /\ Forall (fun c => isspace c = true) a
    /\ Forall (fun c => isspace c = true) b.
Proof.
  unfold strip.
  destruct (lstrip_spaces t) as (a & Ha & Fa).
  destruct (lstrip_spaces (rev (lstrip t))) as (b & Hb & Fb).
  exists a, (rev b). split; [|split; [exact Fa|]].
  - rewrite <- rev_app_distr, <- Hb, rev_involutive. exact Ha.
  - apply Forall_forall; intros c Hc; apply in_rev in Hc.
    revert c Hc; apply Forall_forall; exact Fb.
Qed.

Lemma strip_no_edge_space t : no_edge_space (strip t).
Proof.
  split.
  - intros x Hx.
    destruct (lstrip_spaces (rev (lstrip t))) as (b & Hb & _).
    assert (E : lstrip t = strip t ++ rev b).
    { unfold strip. rewrite <- rev_app_distr, <- Hb, rev_involutive; reflexivity. }
    apply (lstrip_head t). rewrite E.
    destruct (strip t); [discriminate | exact Hx].
  - intros y Hy. unfold strip in Hy; rewrite rev_involutive in Hy.
    exact (lstrip_head _ _ Hy).
Qed.

Lemma In_strip c t : In c t -> isspace c = false -> In c (strip t).
Proof.
  intros Hin Hc. destruct (strip_spaces t) as (a & b & E & Fa & Fb).
  rewrite E in Hin. apply in_app_or in Hin; destruct Hin as [H|H].
  - rewrite Forall_forall in Fa; rewrite (Fa _ H) in Hc; discriminate.
  - apply in_app_or in H; destruct H as [H|H]; [exact H|].
    rewrite Forall_forall in Fb; rewrite (Fb _ H) in Hc; discriminate.
Qed.

Lemma slice_substring t i j : substring (slice t i j) t.
Proof.
  unfold slice, substring.
  set (lo := Z.to_nat (adjust_index (len t) i)).
  set (n := Z.to_nat (adjust_index (len t) j - adjust_index (len t) i)).
  exists (firstn lo t), (skipn n (skipn lo t)).
  rewrite firstn_skipn, firstn_skipn; reflexivity.
Qed.

Lemma chunk_of_substring text seg : substring (chunk_of text seg) text.
Proof.
  unfold chunk_of.
  destruct (slice_substring text (fst seg) (snd seg)) as (p & q & E).
  destruct (strip_middle (slice text (fst seg) (snd seg))) as (a & b & E').
  exists (p ++ a), (b ++ q).
  rewrite E at 1. rewrite E' at 1. rewrite <- !app_assoc. reflexivity.
Qed.

(** X1. No chunk starts or ends with whitespace: every chunk collected
    by the loop, and so every chunk returned by [chunk_text], is a
    stripped string. *)
Theorem chunk_text_chunks_stripped fuel text :
  Forall no_edge_space (chunks (loop_iter fuel text init))
  /\ forall cs, chunk_text fuel text = Some cs -> Forall no_edge_space cs.
Proof.
  assert (G : Forall no_edge_space (chunks (loop_iter fuel text init))).
  { rewrite chunks_loop_iter; simpl app. apply Forall_forall; intros c Hc.
    apply filter_In in Hc; destruct Hc as [Hc _].
    apply in_map_iff in Hc; destruct Hc as (seg & <- & _).
    apply strip_no_edge_space. }
  split; [exact G|].
  intros cs H; apply chunk_loop_iter in H; destruct H as [-> _]; exact G.
Qed.

Lemma two_lines_chunked : chunk_text 3 two_lines = Some two_lines_chunks.
Proof. vm_compute; reflexivity. Qed.

Lemma chunk_text_chunks_stripped_witness : Forall no_edge_space two_lines_chunks.
Proof.
  exact (proj2 (chunk_text_chunks_stripped 3 two_lines) _ two_lines_chunked).
Defined.

(** X2. Every chunk is cut out of the text: it occurs in the text as a
    contiguous substring, character for character. *)
Theorem chunk_text_chunks_substrings fuel text :
  Forall (fun c => substring c text) (chunks (loop_iter fuel text init))
  /\ forall cs, chunk_text fuel text = Some cs ->
       Forall (fun c => substring c text) cs.
Proof.
  assert (G : Forall (fun c => substring c text) (chunks (loop_iter fuel text init))).
  { rewrite chunks_loop_iter; simpl app. apply Forall_forall; intros c Hc.
    apply filter_In in Hc; destruct Hc as [Hc _].
    apply in_map_iff in Hc; destruct Hc as (seg & <- & _).
    apply chunk_of_substring. }
  split; [exact G|].
  intros cs H; apply chunk_loop_iter in H; destruct H as [-> _]; exact G.
Qed.

Lemma chunk_text_chunks_substrings_witness :
  Forall (fun c => substring c two_lines) two_lines_chunks.
Proof.
  exact (proj2 (chunk_text_chunks_substrings 3 two_lines) _ two_lines_chunked).
Defined.

(** *** Short texts *)

Lemma slice_all (t : pystr) j : len t <= j -> slice t 0 j = t.
Proof.
  intros H. unfold slice, adjust_index. simpl (0 <? 0).
  pose proof (len_nonneg t).
  destruct (j <? 0) eqn:E; [lia|].
  rewrite Z.min_r, Z.min_l by lia. simpl skipn.
  rewrite Z.sub_0_r. unfold len. rewrite Nat2Z.id. apply firstn_all.
Qed.

Lemma slice_past_end (t : pystr) i j : len t <= i -> slice t i j = [].
Proof.
  intros H. pose proof (len_nonneg t).
  assert (L : len (slice t i j) = 0).
  { rewrite len_slice.
    pose proof (adjust_index_range (len t) j H0).
    unfold adjust_index in *. destruct (i <? 0) eqn:E; lia. }
  unfold len in L. destruct (slice t i j); [reflexivity | simpl in L; lia].
Qed.

Lemma segment_end_near_end text s :
  len text <= s + CHUNK_SIZE -> segment_end text s = s + CHUNK_SIZE.
Proof.
  intros H; unfold segment_end.
  destruct (s + CHUNK_SIZE <? len text) eqn:E; [lia | reflexivity].
Qed.

(** The loop returns as soon as the state reached is past the end. *)
Lemma chunk_loop_returns fuel : forall text st,
  len text <= start (loop_iter fuel text st) ->
  chunk_loop fuel text st = Some (chunks (loop_iter fuel text st)).
Proof.
  induction fuel as [|fuel IH]; intros text st; rewrite chunk_loop_eq; simpl loop_iter.
  - intros H. replace (start st <? len text) with false
      by (symmetry; apply Z.ltb_ge; exact H). reflexivity.
  - destruct (start st <? len text) eqn:E; [apply IH | reflexivity].
Qed.

Lemma start_loop_iter_segments n : forall text st,
  start (loop_iter n text st)
  = fold_left (fun _ seg => snd seg - CHUNK_OVERLAP) (segments n text (start st))
      (start st).
Proof.
  induction n as [|n IH]; intros text st; simpl; [reflexivity|].
  destruct (start st <? len text) eqn:E; [|reflexivity].
  rewrite IH, start_loop_body. reflexivity.
Qed.

Lemma segments_S n text s :
  segments (S n) text s
  = if s <? len text then
      (s, segment_end text s) :: segments n text (segment_end text s - CHUNK_OVERLAP)
    else [].
Proof. reflexivity. Qed.

Lemma segments_short_text text :
  len text <= CHUNK_SIZE ->
  segments 2 text 0
  = if 0 <? len text then
      (0, CHUNK_SIZE)
      :: (if CHUNK_SIZE - CHUNK_OVERLAP <? len text
          then [(CHUNK_SIZE - CHUNK_OVERLAP, 2 * CHUNK_SIZE - CHUNK_OVERLAP)]
          else [])
    else [].
Proof.
  intros H. rewrite segments_S. destruct (0 <? len text); [|reflexivity].
  rewrite (segment_end_near_end text 0) by lia.
  change (0 + CHUNK_SIZE - CHUNK_OVERLAP) with (CHUNK_SIZE - CHUNK_OVERLAP).
  change (0 + CHUNK_SIZE) with CHUNK_SIZE.
  rewrite segments_S.
  destruct (CHUNK_SIZE - CHUNK_OVERLAP <? len text); [|reflexivity].
  rewrite segment_end_near_end by (unfold CHUNK_SIZE, CHUNK_OVERLAP in *; lia).
  reflexivity.
Qed.

(** X3. A text of at most [CHUNK_SIZE] characters is chunked in at most
    two iterations: the first chunk is the whole text stripped, and
    when the text is longer than [CHUNK_SIZE - CHUNK_OVERLAP] a second
    chunk repeats its tail from position [CHUNK_SIZE - CHUNK_OVERLAP];
    empty chunks are dropped. *)
Theorem chunk_text_short_text text :
  len text <= CHUNK_SIZE ->
  chunk_text 2 text
  = Some (filter truthy
            [strip text;
             strip (slice text (CHUNK_SIZE - CHUNK_OVERLAP)
                               (2 * CHUNK_SIZE - CHUNK_OVERLAP))]).
Proof.
  intros H. pose proof (len_nonneg text) as H0.
  pose proof (segments_short_text text H) as HS.
  unfold chunk_text. rewrite chunk_loop_returns.
  - f_equal. rewrite chunks_loop_iter. change (start init) with 0.
    change (chunks init) with (@nil pystr). rewrite HS. cbn [app].
    destruct (0 <? len text) eqn:E0.
    + destruct (CHUNK_SIZE - CHUNK_OVERLAP <? len text) eqn:E1.
      * unfold chunk_of; simpl fst; simpl snd. simpl List.map.
        rewrite slice_all by lia. reflexivity.
      * unfold chunk_of; simpl fst; simpl snd. simpl List.map.
        rewrite slice_all by lia.
        rewrite (slice_past_end text (CHUNK_SIZE - CHUNK_OVERLAP)) by lia.
        simpl. destruct (truthy (strip text)); reflexivity.
    + assert (text = []) as ->
        by (unfold len in *; destruct text as [|c text]; [reflexivity | exfalso;
            apply Z.ltb_ge in E0;
            change (Datatypes.length (c :: text)) with (S (Datatypes.length text)) in E0;
            lia]).
      reflexivity.
  - rewrite start_loop_iter_segments. change (start init) with 0. rewrite HS.
    destruct (0 <? len text) eqn:E0; [|simpl; lia].
    destruct (CHUNK_SIZE - CHUNK_OVERLAP <? len text) eqn:E1; simpl;
      unfold CHUNK_SIZE, CHUNK_OVERLAP in *; lia.
Qed.

Lemma chunk_text_short_text_witness : chunk_text 2 short_cv = Some [short_cv].
Proof.
  assert (H : len short_cv <= CHUNK_SIZE) by (vm_compute; discriminate).
  rewrite (chunk_text_short_text short_cv H). vm_compute; reflexivity.
Defined.

(** *** Forward progress *)

Lemma chunk_loop_terminates_progress text :
  forward_progress text ->
  forall fuel st,
    0 <= start st -> len text - start st <= Z.of_nat fuel ->
    exists cs, chunk_loop fuel text st = Some cs.
Proof.
  intros Hp. induction fuel as [|fuel IH]; intros st H0 Hm;
    rewrite chunk_loop_eq; destruct (start st <? len text) eqn:E;
    try (eexists; reflexivity).
  - lia.
  - assert (P := Hp (start st) ltac:(lia)).
    apply IH; rewrite start_loop_body; lia.
Qed.

Lemma segments_cover text :
  forward_progress text ->
  forall n s p,
    0 <= s -> s <= p < len text -> len text - s <= Z.of_nat n ->
    exists seg, In seg (segments n text s)
      /\ In p (slice_positions (len text) (fst seg) (snd seg)).
Proof.
  intros Hp. induction n as [|n IH]; intros s p H0 Hs Hn; [lia|].
  simpl. replace (s <? len text) with true by (symmetry; apply Z.ltb_lt; lia).
  assert (P := Hp s ltac:(lia)).
  destruct (Z_lt_ge_dec p (segment_end text s)) as [L|G].
  - exists (s, segment_end text s); split; [left; reflexivity|].
    simpl. unfold slice_positions. apply In_zrange.
    unfold adjust_index, CHUNK_OVERLAP in *.
    destruct (s <? 0) eqn:E1, (segment_end text s <? 0) eqn:E2; lia.
  - destruct (IH (segment_end text s - CHUNK_OVERLAP) p) as (seg & Hin & Hpos);
      try (unfold CHUNK_OVERLAP in *; lia).
    exists seg; split; [right; exact Hin | exact Hpos].
Qed.

Lemma In_slice_position (t : pystr) i j p :
  In p (slice_positions (len t) i j) -> In (char_at t p) (slice t i j).
Proof.
  intros H. rewrite (slice_chars t i j 0%N).
  apply in_map_iff; exists p; split; [reflexivity | exact H].
Qed.

(** Under forward progress every position is in a slice, and a
    character that is not whitespace is in the chunk of that slice. *)
Lemma covered_under_progress text cs :
  forward_progress text ->
  chunk_text (List.length text) text = Some cs ->
  forall p, 0 <= p < len text -> isspace (char_at text p) = false ->
    exists seg,
      In seg (segments (List.length text) text 0)
      /\ In p (slice_positions (len text) (fst seg) (snd seg))
      /\ In (chunk_of text seg) cs
      /\ In (char_at text p) (chunk_of text seg).
Proof.
  intros Hp Hcs p Hpr Hsp.
  destruct (segments_cover text Hp (List.length text) 0 p) as (seg & Hin & Hpos);
    try (unfold len in *; lia).
  exists seg. split; [exact Hin|]. split; [exact Hpos|].
  assert (Hc : In (char_at text p) (chunk_of text seg))
    by (apply In_strip; [apply In_slice_position, Hpos | exact Hsp]).
  split; [|exact Hc].
  rewrite (chunk_text_segments _ _ _ Hcs). apply filter_In; split.
  - apply in_map; exact Hin.
  - destruct (chunk_of text seg); [destruct Hc | reflexivity].
Qed.

(** X5. When every iteration that starts inside the text ends more than
    [CHUNK_OVERLAP] after its start, the loop returns within
    [len(text)] iterations, and every position of the text, whitespace
    or not, lies in the slice of some iteration; when the character at
    the position is not whitespace, the chunk of that iteration is
    among the chunks returned and holds the character. *)
Theorem chunk_text_complete_under_progress text :
  forward_progress text ->
  exists cs,
    chunk_text (List.length text) text = Some cs
    /\ forall p, 0 <= p < len text ->
         exists seg,
           In seg (segments (List.length text) text 0)
           /\ In p (slice_positions (len text) (fst seg) (snd seg))
           /\ (isspace (char_at text p) = false ->
               In (chunk_of text seg) cs
               /\ In (char_at text p) (chunk_of text seg)).
Proof.
  intros Hp.
  destruct (chunk_loop_terminates_progress text Hp (List.length text) init)
    as (cs & Hcs); [simpl; lia | unfold len; simpl; lia |].
  exists cs; split; [exact Hcs|].
  intros p Hpr.
  destruct (segments_cover text Hp (List.length text) 0 p) as (seg & Hin & Hpos);
    try (unfold len in *; lia).
  exists seg. split; [exact Hin|]. split; [exact Hpos|].
  intros Hsp.
  assert (Hc : In (char_at text p) (chunk_of text seg))
    by (apply In_strip; [apply In_slice_position, Hpos | exact Hsp]).
  split; [|exact Hc].
  rewrite (chunk_text_segments _ _ _ Hcs). apply filter_In; split.
  - apply in_map; exact Hin.
  - destruct (chunk_of text seg); [destruct Hc | reflexivity].
Qed.

(** *** [rfind] returns the last occurrence *)

Lemma rindex_last c l d : forall k',
  (k' < List.length l)%nat -> nth k' l d = c ->
  exists k, rindex c l = Some k /\ (k' <= k)%nat.
Proof.
  induction l as [|x r IH]; intros k' Hk Hn; simpl in Hk; [lia|].
  simpl. destruct k' as [|k'].
  - simpl in Hn; subst x. destruct (rindex c r) as [k|].
    + exists (S k); split; [reflexivity | lia].
    + rewrite N.eqb_refl. exists O; split; [reflexivity | lia].
  - simpl in Hn. destruct (IH k' ltac:(lia) Hn) as (k & -> & Hle).
    exists (S k); split; [reflexivity | lia].
Qed.

Lemma nth_zrange lo hi k d :
  (k < Z.to_nat (hi - lo))%nat -> nth k (zrange lo hi) d = lo + Z.of_nat k.
Proof.
  intros H. unfold zrange.
  rewrite (nth_indep _ d (lo + Z.of_nat 0)) by (rewrite length_map, length_seq; exact H).
  rewrite (map_nth (fun k => lo + Z.of_nat k)), seq_nth by exact H. reflexivity.
Qed.

Lemma rfind_last c (t : pystr) i j q :
  adjust_index (len t) i <= q < adjust_index (len t) j ->
  char_at t q = c ->
  q <= rfind c t i j.
Proof.
  intros Hq Hc.
  pose proof (adjust_index_range (len t) i (len_nonneg t)) as Hi.
  set (lo := adjust_index (len t) i) in *.
  set (hi := adjust_index (len t) j) in *.
  assert (Hlen : List.length (slice t i j) = Z.to_nat (hi - lo)).
  { pose proof (len_slice t i j) as L. unfold len in L at 1. fold lo hi in L. lia. }
  destruct (rindex_last c (slice t i j) 0%N (Z.to_nat (q - lo))) as (k & Hk & Hle).
  - lia.
  - rewrite (slice_chars t i j 0%N). unfold slice_positions. fold lo hi.
    rewrite (nth_indep _ 0%N ((fun p => nth (Z.to_nat p) t 0%N) 0))
      by (rewrite length_map; unfold zrange; rewrite length_map, length_seq; lia).
    rewrite (map_nth (fun p => nth (Z.to_nat p) t 0%N)).
    rewrite nth_zrange by lia.
    replace (lo + Z.of_nat (Z.to_nat (q - lo))) with q by lia. exact Hc.
  - unfold rfind. rewrite Hk. fold lo. lia.
Qed.

(** *** Short lines *)

Lemma short_lines_from_skipn w : forall t run i,
  short_lines_from w run t = true ->
  exists run', short_lines_from w run' (skipn i t) = true.
Proof.
  induction t as [|c r IH]; intros run i H.
  - exists run; destruct i; exact H.
  - destruct i as [|i]; [exists run; exact H|].
    cbn [short_lines_from] in H. simpl skipn. destruct (c =? newline)%N.
    + exact (IH _ i H).
    + apply andb_true_iff in H; destruct H as [_ H]. exact (IH _ i H).
Qed.

Lemma short_lines_from_newline w : forall t run n,
  short_lines_from w run t = true ->
  (1 <= n <= List.length t)%nat -> (w < run + n)%nat ->
  exists k, (k < n)%nat /\ nth k t 0%N = newline.
Proof.
  induction t as [|c r IH]; intros run n H Hn Hw; simpl in Hn; [lia|].
  cbn [short_lines_from] in H. destruct (N.eqb_spec c newline) as [->|Hc].
  - exists O; split; [lia | reflexivity].
  - apply andb_true_iff in H; destruct H as [H1 H2]. apply Nat.leb_le in H1.
    destruct (IH (S run) (n - 1)%nat H2 ltac:(lia) ltac:(lia)) as (k & Hk & Hnl).
    exists (S k); split; [lia | exact Hnl].
Qed.

(** With lines of at most [w] characters, every [w + 1] consecutive
    characters contain a newline. *)
Lemma short_lines_window w t i :
  short_lines w t = true ->
  0 <= i -> i + Z.of_nat w + 1 <= len t ->
  exists q, i <= q < i + Z.of_nat w + 1 /\ char_at t q = newline.
Proof.
  intros H Hi Hl. unfold len in Hl.
  destruct (short_lines_from_skipn w t O (Z.to_nat i) H) as (run & Hr).
  destruct (short_lines_from_newline w _ run (S w) Hr) as (k & Hk & Hnl).
  - rewrite length_skipn; lia.
  - lia.
  - exists (i + Z.of_nat k); split; [lia|].
    unfold char_at. rewrite nth_skipn in Hnl.
    replace (Z.to_nat (i + Z.of_nat k)) with (Z.to_nat i + k)%nat by lia.
    exact Hnl.
Qed.

Lemma short_lines_forward_progress text :
  short_lines (Z.to_nat (CHUNK_SIZE - CHUNK_OVERLAP - 2)) text = true ->
  forward_progress text.
Proof.
  intros H s Hs.
  destruct (segment_end_cases text s) as [-> | (Hlt & Hgt & E)];
    [unfold CHUNK_SIZE, CHUNK_OVERLAP; lia|].
  rewrite E in *. set (bp := rfind newline text s (s + CHUNK_SIZE)) in *.
  destruct (Z_lt_ge_dec (s + CHUNK_OVERLAP) bp) as [L|G]; [exact L|exfalso].
  destruct (short_lines_window _ text (bp + 1) H) as (q & Hq & Hnl);
    try (unfold CHUNK_SIZE, CHUNK_OVERLAP in *; lia).
  assert (q <= bp); [|lia].
  apply rfind_last; [|exact Hnl].
  unfold adjust_index, CHUNK_SIZE, CHUNK_OVERLAP in *.
  destruct (s <? 0) eqn:E1, (s + 500 <? 0) eqn:E2; lia.
Qed.

(** X6. A text none of whose lines has more than
    [CHUNK_SIZE - CHUNK_OVERLAP - 2] characters is chunked completely:
    [chunk_text] returns, and every character of the text that is not
    whitespace is in some chunk. *)
Theorem chunk_text_complete_with_short_lines text :
  short_lines (Z.to_nat (CHUNK_SIZE - CHUNK_OVERLAP - 2)) text = true ->
  exists cs,
    chunk_text (List.length text) text = Some cs
    /\ forall p, 0 <= p < len text -> isspace (char_at text p) = false ->
         exists c, In c cs /\ In (char_at text p) c.
Proof.
  intros H. pose proof (short_lines_forward_progress text H) as Hp.
  destruct (chunk_loop_terminates_progress text Hp (List.length text) init)
    as (cs & Hcs); [simpl; lia | unfold len; simpl; lia |].
  exists cs; split; [exact Hcs|].
  intros p Hpr Hsp.
  destruct (covered_under_progress text cs Hp Hcs p Hpr Hsp)
    as (seg & _ & _ & Hin & Hc).
  exists (chunk_of text seg); split; assumption.
Qed.

Lemma two_lines_short_lines :
  short_lines (Z.to_nat (CHUNK_SIZE - CHUNK_OVERLAP - 2)) two_lines = true.
Proof. vm_compute; reflexivity. Qed.

Lemma chunk_text_complete_under_progress_witness :
  exists cs, chunk_text (List.length two_lines) two_lines = Some cs
    /\ (exists seg, In seg (segments (List.length two_lines) two_lines 0)
          /\ In 300 (slice_positions (len two_lines) (fst seg) (snd seg)))
    /\ exists c, In c cs /\ In (char_at two_lines 450) c.
Proof.
  destruct (chunk_text_complete_under_progress two_lines
              (short_lines_forward_progress _ two_lines_short_lines))
    as (cs & Hcs & Hcov).
  exists cs; split; [exact Hcs|]. split.
  - destruct (Hcov 300) as (seg & Hin & Hpos & _);
      [vm_compute; split; [discriminate | reflexivity]|].
    exists seg; split; assumption.
  - destruct (Hcov 450) as (seg & _ & _ & H);
      [vm_compute; split; [discriminate | reflexivity]|].
    destruct (H eq_refl) as (Hin & Hc).
    exists (chunk_of two_lines seg); split; assumption.
Defined.

Lemma chunk_text_complete_with_short_lines_witness :
  exists cs, chunk_text (List.length two_lines) two_lines = Some cs
    /\ exists c, In c cs /\ In (char_at two_lines 450) c.
Proof.
  destruct (chunk_text_complete_with_short_lines two_lines two_lines_short_lines)
    as (cs & Hcs & Hcov).
  exists cs; split; [exact Hcs|]. apply Hcov;
    [vm_compute; split; [discriminate | reflexivity] | reflexivity].
Defined.

Lemma segment_end_without_newline text s :
  ~ In newline text -> 0 <= s -> segment_end text s = s + CHUNK_SIZE.
Proof.
  intros Hnl Hs. unfold segment_end. rewrite (rfind_absent _ _ _ _ Hnl).
  destruct (s + CHUNK_SIZE <? len text); [|reflexivity].
  destruct (-1 >? s) eqn:G; [lia | reflexivity].
Qed.

Lemma segments_without_newline text :
  ~ In newline text ->
  forall n s, 0 <= s ->
    (Z.to_nat ((len text - s + 399) / 400) <= n)%nat ->
    segments n text s
    = List.map (fun k => (s + 400 * Z.of_nat k, s + 400 * Z.of_nat k + 500))
        (seq 0 (Z.to_nat ((len text - s + 399) / 400))).
Proof.
  intros Hnl. induction n as [|n IH]; intros s Hs Hn.
  - replace (Z.to_nat _) with O by lia. reflexivity.
  - rewrite segments_S. destruct (s <? len text) eqn:E.
    + assert (D : (len text - s + 399) / 400 = (len text - (s + 400) + 399) / 400 + 1).
      { replace (len text - s + 399) with (len text - (s + 400) + 399 + 1 * 400) by lia.
        apply Z.div_add; lia. }
      assert (P : 0 <= (len text - (s + 400) + 399) / 400).
      { destruct (Z_lt_ge_dec (len text - (s + 400) + 399) 0) as [N|N].
        - assert ((len text - s + 399) / 400 = 0) by (apply Z.div_small; lia). lia.
        - apply Z.div_pos; lia. }
      rewrite segment_end_without_newline by assumption.
      unfold CHUNK_SIZE, CHUNK_OVERLAP.
      replace (s + 500 - 100) with (s + 400) by lia.
      rewrite IH by lia.
      rewrite D. replace (Z.to_nat (_ + 1)) with (S (Z.to_nat ((len text - (s + 400) + 399) / 400))) by lia.
      cbn [seq List.map]. f_equal; [f_equal; lia|].
      rewrite <- seq_shift, map_map. apply map_ext; intros k.
      f_equal; lia.
    + replace (Z.to_nat _) with O; [reflexivity|].
      assert ((len text - s + 399) / 400 <= 0); [|lia].
      destruct (Z_lt_ge_dec (len text - s + 399) 0) as [N|N].
      * apply Z.lt_le_incl, Z.div_lt_upper_bound; lia.
      * rewrite Z.div_small; lia.
Qed.

(** X4. A text without a newline is cut at a fixed stride: the loop
    returns within [len(text)] iterations and its chunks are the
    non-empty stripped slices [text[400k : 400k + 500]], in order. *)
Theorem chunk_text_without_newline text :
  ~ In newline text ->
  chunk_text (List.length text) text
  = Some (filter truthy (List.map (chunk_of text) (hard_cuts (len text)))).
Proof.
  intros Hnl.
  destruct (chunk_text_terminates_without_newline text Hnl) as (cs & Hcs).
  rewrite Hcs. f_equal. rewrite (chunk_text_segments _ _ _ Hcs).
  assert (B : (len text - 0 + 399) / 400 <= len text).
  { pose proof (len_nonneg text).
    destruct (Z.eq_dec (len text) 0) as [->|N]; [reflexivity|].
    apply Z.div_le_upper_bound; lia. }
  rewrite (segments_without_newline text Hnl) by (unfold len in *; lia).
  unfold hard_cuts, CHUNK_SIZE, CHUNK_OVERLAP.
  replace (len text - 0 + 399) with (len text + (500 - 100) - 1) by lia.
  reflexivity.
Qed.

Lemma plain_text_no_newline : ~ In newline plain_text.
Proof. unfold plain_text; intros H; apply repeat_spec in H; discriminate. Qed.

Lemma chunk_text_without_newline_witness :
  chunk_text 1000 plain_text
  = Some [repeat 98%N 500; repeat 98%N 500; repeat 98%N 200].
Proof.
  change 1000%nat with (List.length plain_text) at 1.
  rewrite (chunk_text_without_newline plain_text plain_text_no_newline).
  vm_compute; reflexivity.
Defined.

(** *** A text gives at least one chunk *)

Lemma strip_keeps_head x r :
  isspace x = false -> hd_error (strip (x :: r)) = Some x.
Proof.
  intros Hx. destruct (strip_spaces (x :: r)) as (a & b & E & Fa & Fb).
  destruct a as [|y a].
  - simpl in E. destruct (strip (x :: r)) as [|z s].
    + simpl in E. subst b. inversion Fb; congruence.
    + simpl in E. injection E as <- _. reflexivity.
  - simpl in E. injection E as <- _. inversion Fa; congruence.
Qed.

Lemma slice_head (t : pystr) x r e :
  t = x :: r -> 0 < e -> exists r', slice t 0 e = x :: r'.
Proof.
  intros -> He. unfold slice, adjust_index.
  assert (L : 0 < len (x :: r)) by (unfold len; cbn [List.length]; lia).
  replace (0 <? 0) with false by reflexivity.
  replace (e <? 0) with false by (symmetry; apply Z.ltb_ge; lia).
  rewrite (Z.min_l 0) by lia. change (Z.to_nat 0) with O. cbn [skipn].
  destruct (Z.to_nat (Z.min e (len (x :: r)) - 0)) as [|n] eqn:N; [lia|].
  exists (firstn n r). reflexivity.
Qed.

(** X7. A text that starts with a character that is not whitespace (as
    every extracted, non-empty text does) gives at least one chunk
    when [chunk_text] returns, and the first chunk starts with the
    first character of the text. *)
Theorem chunk_text_first_chunk fuel text x r cs :
  text = x :: r -> isspace x = false ->
  chunk_text fuel text = Some cs ->
  exists c rest, cs = c :: rest /\ hd_error c = Some x.
Proof.
  intros Ht Hx H. pose proof (chunk_text_segments _ _ _ H) as Hcs.
  destruct fuel as [|fuel].
  { subst text. discriminate H. }
  rewrite segments_S in Hcs.
  assert (L : (0 <? len text) = true)
    by (subst text; reflexivity).
  rewrite L in Hcs. cbn [List.map filter] in Hcs.
  destruct (slice_head text x r (segment_end text 0) Ht (segment_end_gt text 0))
    as (r' & Hs).
  assert (Hh : hd_error (chunk_of text (0, segment_end text 0)) = Some x).
  { unfold chunk_of; cbn [fst snd]. rewrite Hs. apply strip_keeps_head, Hx. }
  destruct (chunk_of text (0, segment_end text 0)) as [|y c] eqn:Ec; [discriminate|].
  cbn [truthy] in Hcs. eexists _, _. split; [exact Hcs | exact Hh].
Qed.

Lemma chunk_text_first_chunk_witness :
  exists c rest, two_lines_chunks = c :: rest /\ hd_error c = Some 97%N.
Proof.
  apply (chunk_text_first_chunk 3 two_lines 97%N
           (repeat 97%N 299 ++ [newline] ++ repeat 98%N 300));
    [reflexivity | reflexivity | exact two_lines_chunked].
Defined.

End IngestExtra.

(** ** Extraction and the points of a document *)

Module IngestFilesExtra.
Import Py Clients Ingest Chat Examples PyFacts IngestFacts ChatFacts IngestMore IngestExtra IngestFiles MoreExamples.
Local Open Scope Z_scope.

(** *** Extraction *)

Lemma fold_left_app_pages (pages : list pystr) : forall acc,
  fold_left (fun text page => text ++ page) pages acc = acc ++ List.concat pages.
Proof.
  induction pages as [|page rest IH]; intros acc; simpl.
  - rewrite app_nil_r; reflexivity.
  - rewrite IH, app_assoc; reflexivity.
Qed.

(** X8. A text that [extract_text] returns never starts or ends with
    whitespace. For each of the three supported extensions nothing is
    printed, and the call returns the stripped text that the parser of
    the extension gives (the pages of a PDF one after the other, the
    paragraphs of a DOCX joined by newlines, the content of a text
    file), or raises the exception of the parser when the file cannot
    be opened, parsed or decoded. For any other extension no parser is
    called: the text returned is empty and the only line printed is
    the warning that names the extension. *)
Theorem extract_text_stripped pdf_pages docx_paragraphs read_file lower_ext path :
  let r := extract_text pdf_pages docx_paragraphs read_file lower_ext path in
  let ext := lower_ext path in
  (forall text, snd r = Returned text -> no_edge_space text)
  /\ (ext = lit ".pdf" ->
      fst r = []
      /\ snd r = match pdf_pages path with
                 | Returned pages => Returned (strip (List.concat pages))
                 | Raised exc => Raised exc
                 end)
  /\ (ext = lit ".docx" ->
      fst r = []
      /\ snd r = match docx_paragraphs path with
                 | Returned paragraphs => Returned (strip (join [10%N] paragraphs))
                 | Raised exc => Raised exc
                 end)
  /\ (ext = lit ".txt" ->
      fst r = []
      /\ snd r = match read_file path with
                 | Returned content => Returned (strip content)
                 | Raised exc => Raised exc
                 end)
  /\ (~ In ext [lit ".pdf"; lit ".docx"; lit ".txt"] ->
      snd r = Returned []
      /\ fst r = [lit "  " ++ [9888%N; 65039%N] ++ lit "  Unsupported format: "
                  ++ ext]).
Proof.
  intros r ext.
  assert (Epdf : ext = lit ".pdf" ->
            r = ([], match pdf_pages path with
                     | Returned pages => Returned (strip (List.concat pages))
                     | Raised exc => Raised exc
                     end)).
  { intros E. unfold r, extract_text. fold ext. rewrite E. cbn [lookup extractors].
    rewrite pystr_eqb_refl. unfold extract_text_from_pdf, and_then.
    destruct (pdf_pages path); [|reflexivity].
    rewrite fold_left_app_pages. reflexivity. }
  assert (Edocx : ext = lit ".docx" ->
            r = ([], match docx_paragraphs path with
                     | Returned paragraphs => Returned (strip (join [10%N] paragraphs))
                     | Raised exc => Raised exc
                     end)).
  { intros E. unfold r, extract_text. fold ext. rewrite E. reflexivity. }
  assert (Etxt : ext = lit ".txt" ->
            r = ([], match read_file path with
                     | Returned content => Returned (strip content)
                     | Raised exc => Raised exc
                     end)).
  { intros E. unfold r, extract_text. fold ext. rewrite E. reflexivity. }
  assert (Eother : ~ In ext [lit ".pdf"; lit ".docx"; lit ".txt"] ->
            r = ([lit "  " ++ [9888%N; 65039%N] ++ lit "  Unsupported format: "
                  ++ ext], Returned [])).
  { intros N. unfold r, extract_text. fold ext. cbn [lookup extractors].
    destruct (pystr_eqb (lit ".pdf") ext) eqn:E1;
      [apply pystr_eqb_eq in E1; exfalso; apply N; left; exact E1|].
    destruct (pystr_eqb (lit ".docx") ext) eqn:E2;
      [apply pystr_eqb_eq in E2; exfalso; apply N; right; left; exact E2|].
    destruct (pystr_eqb (lit ".txt") ext) eqn:E3;
      [apply pystr_eqb_eq in E3; exfalso; apply N; right; right; left; exact E3|].
    reflexivity. }
  split.
  - intros text Hr.
    destruct (list_eq_dec N.eq_dec ext (lit ".pdf")) as [E1|N1].
    { rewrite (Epdf E1) in Hr. cbn [snd] in Hr.
      destruct (pdf_pages path); [|discriminate].
      injection Hr as <-. apply strip_no_edge_space. }
    destruct (list_eq_dec N.eq_dec ext (lit ".docx")) as [E2|N2].
    { rewrite (Edocx E2) in Hr. cbn [snd] in Hr.
      destruct (docx_paragraphs path); [|discriminate].
      injection Hr as <-. apply strip_no_edge_space. }
    destruct (list_eq_dec N.eq_dec ext (lit ".txt")) as [E3|N3].
    { rewrite (Etxt E3) in Hr. cbn [snd] in Hr.
      destruct (read_file path); [|discriminate].
      injection Hr as <-. apply strip_no_edge_space. }
    rewrite Eother in Hr.
    + cbn [snd] in Hr. injection Hr as <-. split; intros x Hx; discriminate.
    + intros [H|[H|[H|[]]]]; congruence.
  - split; [intros E; rewrite (Epdf E); split; reflexivity|].
    split; [intros E; rewrite (Edocx E); split; reflexivity|].
    split; [intros E; rewrite (Etxt E); split; reflexivity|].
    intros N; rewrite (Eother N); split; reflexivity.
Qed.

Lemma extract_text_stripped_witness :
  extract_text no_pages no_pages txt_reader txt_ext (lit "ana.txt")
    = ([], Returned short_cv)
  /\ extract_text no_pages no_pages undecodable txt_ext (lit "ana.txt")
    = ([], Raised (lit "UnicodeDecodeError"))
  /\ snd (extract_text no_pages no_pages undecodable csv_ext (lit "ana.csv"))
    = Returned [].
Proof.
  split; [vm_compute; reflexivity|].
  destruct (extract_text_stripped no_pages no_pages undecodable txt_ext
              (lit "ana.txt")) as (_ & _ & _ & Htxt & _).
  destruct (extract_text_stripped no_pages no_pages undecodable csv_ext
              (lit "ana.csv")) as (_ & _ & _ & _ & Hother).
  split.
  - destruct (Htxt eq_refl) as (H1 & H2).
    rewrite (surjective_pairing (extract_text _ _ _ _ _)), H1, H2. reflexivity.
  - apply Hother. vm_compute. intros [H1|[H1|[H1|[]]]]; discriminate.
Defined.

(** *** The points of one document *)

Lemma combine_seq_snd {A} (l : list A) : forall k,
  List.map snd (combine (seq k (List.length l)) l) = l.
Proof.
  induction l as [|a l IH]; intros k; [reflexivity|].
  simpl. f_equal. apply IH.
Qed.

Lemma combine_seq_fst {A} (l : list A) : forall k,
  List.map fst (combine (seq k (List.length l)) l) = seq k (List.length l).
Proof.
  induction l as [|a l IH]; intros k; [reflexivity|].
  simpl. f_equal. apply IH.
Qed.

Lemma combine_map_fst {A B} (f : A -> B) (l : list A) :
  List.map fst (combine l (List.map f l)) = l.
Proof. induction l as [|a l IH]; [reflexivity|]. simpl. f_equal. exact IH. Qed.

Lemma combine_map_snd {A B} (f : A -> B) (l : list A) :
  List.map snd (combine l (List.map f l)) = List.map f l.
Proof. induction l as [|a l IH]; [reflexivity|]. simpl. f_equal. exact IH. Qed.

Lemma length_combine_map {A B} (f : A -> B) (l : list A) :
  List.length (combine l (List.map f l)) = List.length l.
Proof. rewrite length_combine, length_map. lia. Qed.

(** X9. The points built for one document: one per chunk of
    [chunk_text], in order; the payload text is the chunk, non-empty
    and at most [CHUNK_SIZE] characters; [chunk_index] counts from 0;
    [total_chunks] is the number of chunks; candidate and filename are
    those of the file; the vector is the embedding of the chunk. *)
Theorem document_points_numbered fuel model uuid4 candidate_name filename text points :
  document_points fuel model uuid4 candidate_name filename text = Some points ->
  exists chunks,
    chunk_text fuel text = Some chunks
    /\ List.map (fun p => p_text (payload_of p)) points = chunks
    /\ List.map (fun p => p_chunk_index (payload_of p)) points
       = List.map Z.of_nat (seq 0 (List.length chunks))
    /\ List.map vector_of points = List.map model chunks
    /\ List.map id points = List.map uuid4 (seq 0 (List.length chunks))
    /\ Forall (fun p =>
                 p_total_chunks (payload_of p) = Z.of_nat (List.length chunks)
                 /\ p_candidate (payload_of p) = candidate_name
                 /\ p_filename (payload_of p) = filename
                 /\ p_text (payload_of p) <> []
                 /\ len (p_text (payload_of p)) <= CHUNK_SIZE) points.
Proof.
  unfold document_points. destruct (chunk_text fuel text) as [chunks|] eqn:E;
    [|discriminate].
  intros [= <-]. exists chunks. split; [reflexivity|].
  unfold make_points, enumerate, Clients.embed_texts.
  set (l' := combine chunks (List.map model chunks)).
  assert (T : List.map (fun p => p_text (payload_of p))
                (List.map
                   (fun '(i, (chunk, emb)) =>
                      {| id := uuid4 i; vector_of := emb;
                         payload_of :=
                           {| p_text := chunk; p_candidate := candidate_name;
                              p_filename := filename;
                              p_chunk_index := Z.of_nat i;
                              p_total_chunks := Z.of_nat (List.length chunks) |} |})
                   (combine (seq 0 (List.length l')) l')) = chunks).
  { rewrite map_map.
    rewrite (map_ext _ (fun e => fst (snd e))) by (intros [i [c e]]; reflexivity).
    rewrite <- (map_map snd fst), combine_seq_snd. apply combine_map_fst. }
  split; [exact T|]. split; [|split; [|split]].
  - rewrite map_map.
    rewrite (map_ext _ (fun e => Z.of_nat (fst e))) by (intros [i [c e]]; reflexivity).
    rewrite <- (map_map fst Z.of_nat), combine_seq_fst.
    unfold l'; rewrite length_combine_map; reflexivity.
  - rewrite map_map.
    rewrite (map_ext _ (fun e => snd (snd e))) by (intros [i [c e]]; reflexivity).
    rewrite <- (map_map snd snd), combine_seq_snd. apply combine_map_snd.
  - rewrite map_map.
    rewrite (map_ext _ (fun e => uuid4 (fst e))) by (intros [i [c e]]; reflexivity).
    rewrite <- (map_map fst uuid4), combine_seq_fst.
    unfold l'; rewrite length_combine_map; reflexivity.
  - assert (Ok : Forall chunk_ok chunks).
    { apply chunk_loop_iter in E; destruct E as [-> _].
      apply (loop_inv_iter fuel text init loop_inv_init). }
    rewrite <- T in Ok at 1. rewrite Forall_map in Ok.
    rewrite Forall_forall in *. intros p Hp. specialize (Ok p Hp).
    destruct Ok as [Ok1 Ok2].
    apply in_map_iff in Hp. destruct Hp as ([i [c e]] & <- & _). cbn in *.
    repeat split; assumption.
Qed.

Lemma document_points_numbered_witness :
  exists points,
    document_points 3 unit_model numbered_id (lit "two") (lit "two.txt") two_lines
      = Some points
    /\ List.map (fun p => p_chunk_index (payload_of p)) points = [0; 1; 2].
Proof.
  eexists; split; [reflexivity|].
  destruct (document_points_numbered 3 unit_model numbered_id (lit "two")
              (lit "two.txt") two_lines _ eq_refl)
    as (chunks & Hc & _ & Hi & _).
  rewrite two_lines_chunked in Hc. injection Hc as <-. exact Hi.
Defined.

End IngestFilesExtra.

(** ** Listing the candidates *)

Module ListingExtra.
Import Py Clients Chat PyFacts ChatFacts Listing MoreExamples.
Local Open Scope Z_scope.

(** *** Counting *)







(** *** Sorting *)












End ListingExtra.

(** ** Rounding is monotone *)

Module PyFloatExtra.
Import PyFloat PyFloatFacts.
Local Open Scope Q_scope.

Lemma round_half_even_le_succ_floor q : (round_half_even q <= Qfloor q + 1)%Z.
Proof.
  unfold round_half_even.
  destruct (Qcompare _ _); [destruct (Z.even _)|..]; lia.
Qed.

Lemma round_half_even_Z z : round_half_even (inject_Z z) = z.
Proof.
  unfold round_half_even. rewrite Qfloor_Z.
  destruct (Qcompare_spec (inject_Z z - inject_Z z) (1 # 2)) as [C|C|C]; try lra.
  reflexivity.
Qed.

Lemma round_half_even_mono a b : a <= b -> (round_half_even a <= round_half_even b)%Z.
Proof.
  intros H. pose proof (Qfloor_resp_le a b H) as Hf.
  destruct (Z.eq_dec (Qfloor a) (Qfloor b)) as [E|N].
  - unfold round_half_even. rewrite E.
    destruct (Qcompare_spec (a - inject_Z (Qfloor b)) (1 # 2)) as [C|C|C];
      destruct (Qcompare_spec (b - inject_Z (Qfloor b)) (1 # 2)) as [D|D|D];
      try destruct (Z.even (Qfloor b)); try lia; lra.
  - pose proof (round_half_even_le_succ_floor a).
    pose proof (floor_le_round_half_even b). lia.
Qed.

Lemma round_half_even_le_int z q :
  q <= inject_Z z -> (round_half_even q <= z)%Z.
Proof.
  intros H. rewrite <- (round_half_even_Z z). apply round_half_even_mono, H.
Qed.

Lemma pow2_pos e : 0 < 2 ^ e.
Proof. apply Qpower_0_lt; reflexivity. Qed.

Lemma ulp_exp_mono x y : x <= y -> (ulp_exp x <= ulp_exp y)%Z.
Proof.
  intros H. unfold ulp_exp.
  apply Z.max_le_compat_r, Z.sub_le_mono_r, Z.log2_le_mono, Qfloor_resp_le.
  apply Qmult_le_compat_r; [exact H | discriminate].
Qed.

Lemma ulp_exp_lower q : (-1074 <= ulp_exp q)%Z.
Proof. unfold ulp_exp; lia. Qed.

(** Below the next power of two: [q < 2^53 * 2^(ulp_exp q)]. *)
Lemma ulp_exp_upper q :
  0 <= q -> q <= inject_Z (2 ^ 53) * 2 ^ ulp_exp q.
Proof.
  intros Hq. set (e := ulp_exp q).
  set (S := inject_Z (2 ^ 1074)).
  set (F := Qfloor (q * S)).
  assert (HS : 0 < S) by reflexivity.
  assert (HF : (0 <= F)%Z).
  { unfold F. rewrite <- (Qfloor_Z 0). apply Qfloor_resp_le.
    apply Qmult_le_0_compat; [exact Hq | apply Qlt_le_weak, HS]. }
  assert (He : (Z.log2 F - 1126 <= e)%Z) by (unfold e, ulp_exp; fold S F; lia).
  assert (Hlt : (F + 1 <= 2 ^ (e + 1127))%Z).
  { destruct (Z.eq_dec F 0) as [->|N].
    - pose proof (ulp_exp_lower q). fold e in H.
      assert (2 ^ 0 <= 2 ^ (e + 1127))%Z by (apply Z.pow_le_mono_r; lia).
      simpl in *; lia.
    - destruct (Z.log2_spec F ltac:(lia)) as [_ Hu].
      assert (2 ^ Z.succ (Z.log2 F) <= 2 ^ (e + 1127))%Z
        by (apply Z.pow_le_mono_r; lia).
      lia. }
  pose proof (Qlt_floor (q * S)) as Hfl. fold F in Hfl.
  rewrite Zle_Qle in Hlt.
  pose proof (ulp_exp_lower q) as Hlow. fold e in Hlow.
  rewrite Zpower_Qpower in Hlt by lia.
  change (inject_Z 2) with 2 in Hlt.
  rewrite Qpower_plus in Hlt by discriminate.
  assert (HP := pow2_pos e). set (P := 2 ^ e) in *.
  assert (E : (2:Q) ^ 1127 == inject_Z (2 ^ 53) * S) by reflexivity.
  rewrite E in Hlt. set (U := inject_Z (2 ^ 53)) in *.
  assert (Hm : q * S <= (U * P) * S).
  { apply Qlt_le_weak. eapply Qlt_le_trans; [exact Hfl|].
    eapply Qle_trans; [exact Hlt|]. apply Qle_lteq; right; ring. }
  apply Qmult_le_r in Hm; [exact Hm | exact HS].
Qed.

(** At or above the current power of two, unless subnormal. *)
Lemma ulp_exp_lower_bound q :
  (-1074 < ulp_exp q)%Z -> inject_Z (2 ^ 52) * 2 ^ ulp_exp q <= q.
Proof.
  intros He. set (e := ulp_exp q) in *.
  set (S := inject_Z (2 ^ 1074)).
  set (F := Qfloor (q * S)).
  assert (HS : 0 < S) by reflexivity.
  assert (Hl : (Z.log2 F = e + 1126)%Z) by (unfold e, ulp_exp in *; fold S F in He |- *; lia).
  assert (HF : (0 < F)%Z).
  { destruct (Z_lt_ge_dec 0 F) as [L|G]; [exact L|].
    rewrite Z.log2_nonpos in Hl by lia. lia. }
  destruct (Z.log2_spec F HF) as [Hlo _]. rewrite Hl in Hlo.
  pose proof (Qfloor_le (q * S)) as Hfl. fold F in Hfl.
  rewrite Zle_Qle in Hlo.
  rewrite Zpower_Qpower in Hlo by lia.
  change (inject_Z 2) with 2 in Hlo.
  rewrite Qpower_plus in Hlo by discriminate.
  assert (HP := pow2_pos e). set (P := 2 ^ e) in *.
  assert (E : (2:Q) ^ 1126 == inject_Z (2 ^ 52) * S) by reflexivity.
  rewrite E in Hlo. set (U := inject_Z (2 ^ 52)) in *.
  assert (Hm : (U * P) * S <= q * S).
  { eapply Qle_trans; [|exact Hfl]. eapply Qle_trans; [|exact Hlo].
    apply Qle_lteq; right; ring. }
  apply Qmult_le_r in Hm; [exact Hm | exact HS].
Qed.

Lemma nearest_double_nonneg_mono x y :
  0 <= x -> x <= y -> nearest_double_nonneg x <= nearest_double_nonneg y.
Proof.
  intros Hx Hxy. unfold nearest_double_nonneg.
  pose proof (ulp_exp_mono x y Hxy) as He.
  set (ex := ulp_exp x) in *. set (ey := ulp_exp y) in *.
  assert (Px := pow2_pos ex). assert (Py := pow2_pos ey).
  destruct (Z.eq_dec ex ey) as [E|N].
  - rewrite E. apply Qmult_le_compat_r; [|apply Qlt_le_weak, Py].
    rewrite <- Zle_Qle. apply round_half_even_mono.
    apply Qmult_le_compat_r; [exact Hxy | apply Qlt_le_weak, Qinv_lt_0_compat, Py].
  - assert (Hex : (-1074 <= ex)%Z) by apply ulp_exp_lower.
    assert (Ux : (round_half_even (x / 2 ^ ex) <= 2 ^ 53)%Z).
    { apply round_half_even_le_int, Qle_shift_div_r; [exact Px|].
      apply ulp_exp_upper, Hx. }
    assert (Ly : (2 ^ 52 <= round_half_even (y / 2 ^ ey))%Z).
    { apply round_half_even_ge_int, Qle_shift_div_l; [exact Py|].
      apply ulp_exp_lower_bound. fold ey. lia. }
    rewrite Zle_Qle in Ux, Ly.
    assert (Hp : 2 ^ ex <= 2 ^ (ey - 1))
      by (apply Qpower_le_compat_l; [lia | discriminate]).
    assert (Ey : 2 ^ ey == 2 ^ (ey - 1) * 2).
    { replace ey with (ey - 1 + 1)%Z at 1 by lia.
      rewrite Qpower_plus by discriminate. reflexivity. }
    assert (Pm := pow2_pos (ey - 1)).
    set (A := 2 ^ ex) in *. set (B := 2 ^ ey) in *. set (C := 2 ^ (ey - 1)) in *.
    set (rx := inject_Z (round_half_even (x / A))) in *.
    set (ry := inject_Z (round_half_even (y / B))) in *.
    assert (E53 : inject_Z (2 ^ 53) == 2 * inject_Z (2 ^ 52)) by reflexivity.
    set (U := inject_Z (2 ^ 52)) in *. rewrite E53 in Ux.
    assert (HU : 0 < U) by reflexivity.
    apply Qle_trans with ((2 * U) * A);
      [apply Qmult_le_compat_r; [exact Ux | apply Qlt_le_weak, Px]|].
    apply Qle_trans with (U * B);
      [|apply Qmult_le_compat_r; [exact Ly | apply Qlt_le_weak, Py]].
    rewrite Ey.
    apply Qle_trans with ((2 * U) * C);
      [apply Qmult_le_l; [lra | exact Hp] | apply Qle_lteq; right; ring].
Qed.

Lemma nearest_double_nonneg_nonneg x : 0 <= x -> 0 <= nearest_double_nonneg x.
Proof.
  intros Hx. unfold nearest_double_nonneg.
  apply Qmult_le_0_compat; [|apply Qlt_le_weak, pow2_pos].
  change 0 with (inject_Z 0). rewrite <- Zle_Qle.
  apply round_half_even_ge_int. change (inject_Z 0) with 0.
  apply Qle_shift_div_l; [apply pow2_pos|]. lra.
Qed.

Lemma to_double_mono x y : x <= y -> to_double x <= to_double y.
Proof.
  intros H. unfold to_double.
  destruct (Qcompare_spec x 0) as [Cx|Cx|Cx];
    destruct (Qcompare_spec y 0) as [Cy|Cy|Cy];
    try (apply nearest_double_nonneg_mono; lra); try lra.
  - assert (0 <= nearest_double_nonneg (- x))
      by (apply nearest_double_nonneg_nonneg; lra).
    assert (0 <= nearest_double_nonneg y)
      by (apply nearest_double_nonneg_nonneg; lra). lra.
  - assert (nearest_double_nonneg (- y) <= nearest_double_nonneg (- x))
      by (apply nearest_double_nonneg_mono; lra). lra.
  - assert (0 <= nearest_double_nonneg (- x))
      by (apply nearest_double_nonneg_nonneg; lra).
    assert (0 <= nearest_double_nonneg y)
      by (apply nearest_double_nonneg_nonneg; lra). lra.
Qed.

(** [round(x, ndigits)] is monotone in [x]. *)
Lemma round_mono x y ndigits :
  (0 <= ndigits)%Z -> x <= y -> round x ndigits <= round y ndigits.
Proof.
  intros Hn H. unfold round.
  assert (Hs : 0 < inject_Z (10 ^ ndigits)).
  { change 0 with (inject_Z 0). rewrite <- Zlt_Qlt. apply Z.pow_pos_nonneg; lia. }
  set (s := inject_Z (10 ^ ndigits)) in *.
  apply to_double_mono.
  apply Qmult_le_compat_r; [|apply Qlt_le_weak, Qinv_lt_0_compat, Hs].
  rewrite <- Zle_Qle. apply round_half_even_mono.
  apply Qmult_le_compat_r; [exact H | apply Qlt_le_weak, Hs].
Qed.

End PyFloatExtra.

(** ** Retrieval, grouping and orchestration *)

Module ChatExtra.
Import Py Clients Chat Examples PyFacts ChatFacts PyFloatFacts PyFloatExtra ChatMore MoreExamples.
Local Open Scope Z_scope.

(** *** Grouping keeps every hit *)

Lemma setdefault_append_perm key c d :
  Permutation (List.concat (List.map snd (setdefault_append key c d)))
              (c :: List.concat (List.map snd d)).
Proof.
  induction d as [|[k items] rest IH]; simpl.
  - reflexivity.
  - destruct (pystr_eqb k key); simpl.
    + rewrite <- app_assoc. simpl.
      symmetry. apply Permutation_middle.
    + rewrite IH. symmetry. apply Permutation_middle.
Qed.

(** X11. Grouping by candidate neither loses nor duplicates a hit: the
    groups together are a permutation of the input; the context has
    one header per group and two parts (text and blank line) per
    hit. *)
Theorem group_by_candidate_keeps_hits chunks :
  Permutation (List.concat (List.map snd (group_by_candidate chunks))) chunks
  /\ (List.length (flat_map section_parts (group_by_candidate chunks))
      = List.length (group_by_candidate chunks) + 2 * List.length chunks)%nat.
Proof.
  assert (P : Permutation
                (List.concat (List.map snd (group_by_candidate chunks))) chunks).
  { induction chunks as [|c chunks IH] using rev_ind; [reflexivity|].
    rewrite group_by_candidate_snoc, setdefault_append_perm, IH.
    apply Permutation_cons_append. }
  split; [exact P|].
  apply Permutation_length in P. rewrite <- P.
  generalize (group_by_candidate chunks) as d. clear.
  induction d as [|[k items] rest IH]; [reflexivity|].
  simpl. rewrite !length_app, IH.
  assert (E : List.length (flat_map (fun item : hit => [text item; []]) items)
              = (2 * List.length items)%nat).
  { clear. induction items as [|i items IH]; [reflexivity|].
    simpl flat_map. simpl List.length in *. lia. }
  rewrite E. lia.
Qed.

(** *** Retrieval keeps count and order *)

Lemma Sorted_map {A B} (R : A -> A -> Prop) (R' : B -> B -> Prop) (f : A -> B) l :
  (forall a b, R a b -> R' (f a) (f b)) ->
  Sorted R l -> Sorted R' (List.map f l).
Proof.
  intros Hf; induction 1 as [|a l HS IH HR]; simpl; constructor; [exact IH|].
  destruct HR; simpl; constructor; auto.
Qed.

(** X12. [retrieve] returns one hit per point of the search, in the same
    order, with text, candidate, filename and chunk index copied from
    the payload; when the store returns at most [limit] points, at
    most [top_k] hits are returned. *)
Theorem retrieve_at_most_top_k model question qdrant top_k tr :
  honors_limit qdrant -> 0 <= top_k ->
  let hits := fst (retrieve model question qdrant top_k tr) in
  let points :=
    search qdrant COLLECTION_NAME (embed_query model question) top_k
      SCORE_THRESHOLD in
  Z.of_nat (List.length hits) <= top_k
  /\ List.map text hits = List.map (fun p => p_text (sp_payload p)) points
  /\ List.map candidate hits = List.map (fun p => p_candidate (sp_payload p)) points
  /\ List.map filename hits = List.map (fun p => p_filename (sp_payload p)) points
  /\ List.map chunk_index hits
     = List.map (fun p => p_chunk_index (sp_payload p)) points.
Proof.
  intros Hl Hk hits points. unfold hits. rewrite retrieve_eq. simpl fst.
  fold points. rewrite length_map, !map_map. simpl.
  split; [apply Hl, Hk|]. repeat split; reflexivity.
Qed.

Lemma ranked_store_limit : honors_limit ranked_store.
Proof.
  intros collection v limit threshold Hl; simpl.
  rewrite length_firstn. lia.
Qed.

Lemma retrieve_at_most_top_k_witness :
  Z.of_nat (List.length
    (fst (retrieve null_embedder (lit "Who knows SQL?") ranked_store 1 []))) <= 1.
Proof.
  apply (retrieve_at_most_top_k null_embedder (lit "Who knows SQL?")
           ranked_store 1 [] ranked_store_limit). lia.
Defined.

(** X13. Rounding the scores to three decimals keeps the ranking: when
    the store returns its points by descending score, the hits of
    [retrieve] are in descending order of their rounded scores. *)
Theorem retrieve_keeps_descending_order model question qdrant top_k tr :
  returns_descending qdrant ->
  descending score (fst (retrieve model question qdrant top_k tr)).
Proof.
  intros Hd. rewrite retrieve_eq. simpl fst. unfold descending.
  eapply Sorted_map; [|apply Hd].
  intros a b H. simpl. apply round_mono; [lia | exact H].
Qed.

Lemma ranked_store_descending : returns_descending ranked_store.
Proof.
  intros collection v limit threshold; unfold descending; simpl.
  assert (T : (sp_score half_point <= sp_score top_point)%Q)
    by (vm_compute; discriminate).
  destruct (Qle_bool threshold (9 # 10)), (Qle_bool threshold (1 # 2));
    destruct (Z.to_nat limit) as [|[|n]]; cbn [firstn];
    try rewrite firstn_nil;
    repeat first [apply Sorted_nil | apply Sorted_cons | apply HdRel_nil
                 | apply HdRel_cons]; try exact T.
Qed.

Lemma retrieve_keeps_descending_order_witness :
  descending score
    (fst (retrieve null_embedder (lit "Who knows SQL?") ranked_store TOP_K [])).
Proof.
  exact (retrieve_keeps_descending_order null_embedder (lit "Who knows SQL?")
           ranked_store TOP_K [] ranked_store_descending).
Defined.

(** *** One search, at most one generation *)

(** X14. One call of [rag] makes exactly one search and, when there are
    hits, exactly one call of the model, with the prompt built from
    the context of these hits and the history; it returns the hits of
    retrieval unchanged and, when there are hits, the text of the
    model as the answer. *)
Theorem rag_calls model question qdrant gemini_model history tr :
  let hits := fst (retrieve model question qdrant TOP_K tr) in
  let prompt := build_prompt question (build_context hits) history in
  let v := embed_query model question in
  chunks (fst (rag model question qdrant gemini_model history tr)) = hits
  /\ snd (rag model question qdrant gemini_model history tr)
     = tr ++ EvSearch COLLECTION_NAME v TOP_K SCORE_THRESHOLD
          :: (if List.length hits =? 0 then [] else [EvGenerate prompt])%nat
  /\ (hits <> [] ->
      answer (fst (rag model question qdrant gemini_model history tr))
      = generate_content gemini_model prompt).
Proof.
  intros hits prompt v. unfold rag, bind.
  unfold hits in *. rewrite retrieve_eq in *. simpl fst in *.
  destruct (List.map hit_of_point _) as [|h hs] eqn:E; simpl.
  - split; [reflexivity|]. split; [reflexivity|]. congruence.
  - split; [reflexivity|]. split; [rewrite <- app_assoc; reflexivity|].
    reflexivity.
Qed.

Lemma half_store_hits_nonempty :
  fst (retrieve null_embedder (lit "Who knows SQL?") half_store TOP_K []) <> [].
Proof. vm_compute; discriminate. Qed.

Lemma rag_calls_witness :
  answer (fst (rag null_embedder (lit "Who knows SQL?") half_store echo_model None []))
  = build_prompt (lit "Who knows SQL?")
      (build_context
         (fst (retrieve null_embedder (lit "Who knows SQL?") half_store TOP_K [])))
      None.
Proof.
  destruct (rag_calls null_embedder (lit "Who knows SQL?") half_store echo_model
              None []) as (_ & _ & H).
  exact (H half_store_hits_nonempty).
Defined.

End ChatExtra.

(** ** The rows of print_sources *)

Module SourcesExtra.
Import Py Clients Chat Examples PyFacts ChatMore.
Local Open Scope Z_scope.










End SourcesExtra.

(** ** The terminal chat *)

Module TerminalExtra.
Import Py Clients Chat Examples PyFacts ChatFacts Listing Terminal MoreExamples.
Local Open Scope Z_scope.





End TerminalExtra.

(** ** The cached embedding model *)

Module ClientsExtra.
Import Py Clients ClientsState MoreExamples.
Local Open Scope Z_scope.

Lemma embed_texts_cached SentenceTransformer texts p m :
  _embedder p = Some m ->
  embed_texts SentenceTransformer texts p
  = (Clients.embed_texts m texts,
     {| _embedder := Some m;
        log := log p ++ [Encode texts (10 <? Z.of_nat (List.length texts))] |}).
Proof.
  intros H. unfold embed_texts, get_embedder. rewrite H. rewrite H. reflexivity.
Qed.

Lemma embed_batches_cached SentenceTransformer batches : forall p m,
  _embedder p = Some m ->
  fst (embed_batches SentenceTransformer batches p)
    = List.map (Clients.embed_texts m) batches
  /\ _embedder (snd (embed_batches SentenceTransformer batches p)) = Some m
  /\ filter is_load (log (snd (embed_batches SentenceTransformer batches p)))
     = filter is_load (log p).
Proof.
  induction batches as [|texts rest IH]; intros p m H; cbn [embed_batches].
  - simpl; auto.
  - rewrite (embed_texts_cached SentenceTransformer texts p m H).
    set (p' := {| _embedder := Some m; log := _ |}).
    destruct (IH p' m eq_refl) as (H1 & H2 & H3).
    destruct (embed_batches SentenceTransformer rest p') as [vss p''].
    simpl in *. rewrite H1, H2, H3. repeat split.
    unfold p'; simpl. rewrite filter_app; simpl. apply app_nil_r.
Qed.

Lemma embed_texts_first SentenceTransformer texts :
  let m := SentenceTransformer EMBEDDING_MODEL in
  fst (embed_texts SentenceTransformer texts start_process)
    = Clients.embed_texts m texts
  /\ _embedder (snd (embed_texts SentenceTransformer texts start_process)) = Some m
  /\ filter is_load (log (snd (embed_texts SentenceTransformer texts start_process)))
     = [LoadModel EMBEDDING_MODEL].
Proof. repeat split. Qed.

(** X17. The embedding model is constructed once: over any non-empty
    sequence of calls of [embed_texts] in a fresh process, exactly one
    model is loaded, the one named [EMBEDDING_MODEL], it stays cached,
    and every batch is embedded with it. *)
Theorem embedder_loaded_once SentenceTransformer batches :
  batches <> [] ->
  let m := SentenceTransformer EMBEDDING_MODEL in
  let r := embed_batches SentenceTransformer batches start_process in
  fst r = List.map (Clients.embed_texts m) batches
  /\ _embedder (snd r) = Some m
  /\ filter is_load (log (snd r)) = [LoadModel EMBEDDING_MODEL].
Proof.
  intros NE m r. destruct batches as [|texts rest]; [congruence|].
  unfold r. cbn [embed_batches].
  destruct (embed_texts_first SentenceTransformer texts) as (F1 & F2 & F3). fold m in F1, F2.
  destruct (embed_texts SentenceTransformer texts start_process) as [vs p1].
  cbn [fst snd] in F1, F2, F3.
  destruct (embed_batches_cached SentenceTransformer rest p1 m F2) as (H1 & H2 & H3).
  destruct (embed_batches SentenceTransformer rest p1) as [vss p2].
  cbn [fst snd] in *. cbn [List.map]. rewrite F1, H1, H2, H3, F3.
  repeat split.
Qed.

Lemma embedder_loaded_once_witness :
  filter is_load
    (log (snd (embed_batches (fun _ => unit_model)
                 [[lit "a"]; [lit "b"; lit "c"]] start_process)))
  = [LoadModel EMBEDDING_MODEL].
Proof.
  destruct (embedder_loaded_once (fun _ => unit_model)
              [[lit "a"]; [lit "b"; lit "c"]]) as (_ & _ & H);
    [discriminate | exact H].
Defined.

End ClientsExtra.
